(** * youtube-upload-api: the streaming relay, its retry loop and the job store

    A shallow embedding of [src/index.js].  The server is event driven: every
    HTTP exchange is a sequence of callbacks fired by Node.  The embedding
    keeps the handlers as the source wrote them and takes the sequence of
    events fired by the runtime as an input (the environment), so a promise
    is settled by the first handler that calls [resolve] or [reject], and an
    [await] on a promise that no event settles never returns.

    - The URLs, the token and the content type of a transfer only shape the
      requests that go out; what comes back is the environment's choice, so
      [attemptStreamUpload] is a function of the events alone.
    - An [async] function is a computation in [M]: the effects it has, in
      program order, and the way it ends.  The assignments to the job are
      among the effects, which gives the job after every single assignment.
    - Timestamps are millisecond counts; [toISOString] and [new Date(...)]
      are inverse on them.
    - Built-in functions of the JavaScript runtime ([JSON.parse], [parseInt])
      are an interface the code is written against; they are collected in
      the class [JsBuiltins].
    - An exception thrown inside a callback, outside any promise, ends the
      process; such runs are not covered. *)

From Stdlib Require Import ZArith String Ascii List Lia Bool.
From Stdlib Require Import DecimalString DecimalZ Decimal.
From Stdlib Require Import Sorting.Sorted Sorting.Permutation.
From stdpp Require Import base tactics option numbers list strings sorting.

Local Open Scope Z_scope.

(* ===================================================================== *)
(** ** JavaScript values the code touches                                  *)
(* ===================================================================== *)

(** A number as [parseInt] returns it. *)
Inductive js_number :=
| JsNum (z : Z)
| JsNaN.

(** The value [JSON.parse] returns.  Objects keep their own properties as an
    association list (keys are unique after parsing). *)
#[warnings="-register-all"] Inductive json :=
| JNull
| JBool (b : bool)
| JNumber (num : Z) (den : positive)
| JString (s : string)
| JArray (items : list json)
| JObject (props : list (string * json)).

(** The built-ins of the runtime.  [JSON_parse] is [None] where
    [JSON.parse] throws a [SyntaxError]. *)
Class JsBuiltins := {
  JSON_parse : string -> option json;
  parseInt10 : string -> js_number;
}.

(** Template literals render an integer in decimal: [`${n}`]. *)
Definition dec (z : Z) : string := NilZero.string_of_int (Z.to_int z).

(** JavaScript truthiness, on the values of [json]. *)
Definition truthy (v : json) : bool :=
  match v with
  | JNull => false
  | JBool b => b
  | JNumber n _ => negb (n =? 0)
  | JString s => negb (String.eqb s EmptyString)
  | JArray _ => true
  | JObject _ => true
  end.

Fixpoint own_property (k : string) (props : list (string * json)) : option json :=
  match props with
  | [] => None
  | (k', v) :: rest => if String.eqb k k' then Some v else own_property k rest
  end.

(** [json.id]: [None] is [undefined]; reading a property of [null] throws a
    [TypeError], which is the outer [None]. *)
Definition get_id (v : json) : option (option json) :=
  match v with
  | JNull => None
  | JObject props => Some (own_property "id" props)
  | _ => Some None
  end.

(** [x || null] where [x] is a property read. *)
Definition or_null (x : option json) : json :=
  match x with
  | Some v => if truthy v then v else JNull
  | None => JNull
  end.

(* ===================================================================== *)
(** ** Errors                                                             *)
(* ===================================================================== *)

(** An [Error] object with the properties the code reads or writes.  An
    absent property ([undefined]) is [None]. *)
Record js_error := Err {
  message : string;
  code : option string;
  statusCode : option Z;
  body : option string;
}.

(** [new Error(msg)]: only the message is set. *)
Definition new_Error (msg : string) : js_error :=
  {| message := msg; code := None; statusCode := None; body := None |}.

(** What a [throw] or a rejection carries.  [ThrownUndefined] is the value of
    a [let] that was never assigned. *)
Inductive js_thrown :=
| Thrown (e : js_error)
| ThrownUndefined.

(** A promise: pending, or settled once. *)
Inductive promise (A : Type) :=
| PPending
| PResolved (a : A)
| PRejected (e : js_error).
Arguments PPending {A}.
Arguments PResolved {A} a.
Arguments PRejected {A} e.

(** [resolve] and [reject] do nothing on a settled promise. *)
Definition settle {A} (p q : promise A) : promise A :=
  match p with
  | PPending => q
  | _ => p
  end.

(* ===================================================================== *)
(** ** getContentLength                                                    *)
(* ===================================================================== *)

(** Events of the HEAD request, in the order the runtime fires them. *)
Inductive head_event :=
| HeadSetupThrew (e : js_error)           (* [new URL] or [client.request] threw *)
| HeadResponse (content_length : option string)
| HeadError (e : js_error)                (* [req.on('error', ...)] *)
| HeadTimeout.                            (* the 15000 ms timer *)

Section Builtins.
Context `{JsBuiltins}.

Definition head_handler (p : promise js_number) (ev : head_event) : promise js_number :=
  match ev with
  | HeadSetupThrew e => settle p (PRejected e)
  | HeadResponse len =>
      match len with
      | Some len => settle p (PResolved (parseInt10 len))
      | None =>
          settle p (PRejected (new_Error
            "Source URL does not provide Content-Length. Pass contentLength in the request body."))
      end
  | HeadError e => settle p (PRejected e)
  | HeadTimeout =>
      (* [req.destroy(err)] emits ['error'] with [err] *)
      settle p (PRejected (new_Error "HEAD request timeout"))
  end.

Definition getContentLength (events : list head_event) : promise js_number :=
  fold_left head_handler events PPending.

(* ===================================================================== *)
(** ** attemptStreamUpload                                                *)
(* ===================================================================== *)

Record upload_result := UploadResult {
  r_statusCode : Z;
  videoId : json;
  rawResponse : option string;
}.

(** Events of one download-and-upload attempt. *)
Inductive relay_event :=
| RelaySetupThrew (e : js_error)          (* the executor threw before any request *)
| SourceResponse (status : Z)             (* callback of [httpModule.get] *)
| SourceError (e : js_error)              (* [getReq.on('error', ...)] *)
| SourceTimeout                           (* the 60000 ms timer *)
| DestResponse (status : Z)               (* callback of [uploadModule.request] *)
| DestData (chunk : string)               (* [putRes.on('data', ...)] *)
| DestEnd                                 (* [putRes.on('end', ...)] *)
| DestError (e : js_error)                (* [putReq.on('error', ...)] *)
| PipelineError (e : js_error).           (* [pipelineAsync(...).catch(reject)] *)

(** The state the callbacks of one attempt close over. *)
Record relay_state := RelayState {
  settled : promise upload_result;
  putReq : bool;                          (* the PUT request was issued *)
  putRes : option (Z * string);           (* response status and [body] so far *)
}.

Definition relay_init : relay_state :=
  {| settled := PPending; putReq := false; putRes := None |}.

Definition with_settled (st : relay_state) (q : promise upload_result) : relay_state :=
  {| settled := settle (settled st) q; putReq := putReq st; putRes := putRes st |}.

(** The body of the [try] in the 201 branch. *)
Definition parse_videoId (body : string) : json :=
  match JSON_parse body with
  | None => JNull                         (* [JSON.parse] threw *)
  | Some v =>
      match get_id v with
      | None => JNull                     (* [json.id] threw *)
      | Some x => or_null x
      end
  end.

(** The ['end'] handler of the destination response. *)
Definition on_end (status : Z) (body : string) : promise upload_result :=
  if status =? 201 then
    PResolved {| r_statusCode := 201;
                 videoId := parse_videoId body;
                 rawResponse := if (0 <? Z.of_nat (String.length body)) then Some body else None |}
  else if status =? 308 then
    PRejected {| message := "Upload incomplete (308), will retry";
                 code := None; statusCode := Some 308; body := None |}
  else
    PRejected {| message := "YouTube upload failed: HTTP " +:+ dec status +:+ " - " +:+ body;
                 code := None; statusCode := Some status; body := Some body |}.

Definition relay_handler (st : relay_state) (ev : relay_event) : relay_state :=
  match ev with
  | RelaySetupThrew e => with_settled st (PRejected e)
  | SourceResponse status =>
      if 400 <=? status then
        with_settled st (PRejected (new_Error ("Failed to download video: HTTP " +:+ dec status)))
      else
        {| settled := settled st; putReq := true; putRes := putRes st |}
  | SourceError e => with_settled st (PRejected e)
  | SourceTimeout => with_settled st (PRejected (new_Error "Download timeout"))
  | DestResponse status =>
      if putReq st then
        {| settled := settled st; putReq := true; putRes := Some (status, EmptyString) |}
      else st
  | DestData chunk =>
      match putRes st with
      | Some (status, body) =>
          {| settled := settled st; putReq := putReq st; putRes := Some (status, body +:+ chunk) |}
      | None => st
      end
  | DestEnd =>
      match putRes st with
      | Some (status, body) => with_settled st (on_end status body)
      | None => st
      end
  | DestError e => if putReq st then with_settled st (PRejected e) else st
  | PipelineError e => if putReq st then with_settled st (PRejected e) else st
  end.

Definition relay_run (st : relay_state) (events : list relay_event) : relay_state :=
  fold_left relay_handler events st.

Definition attemptStreamUpload (events : list relay_event) : promise upload_result :=
  settled (relay_run relay_init events).

End Builtins.

(* ===================================================================== *)
(** ** Jobs                                                               *)
(* ===================================================================== *)

Inductive job_status := Pending | Downloading | Uploading | Completed | Failed.

#[global] Instance job_status_eq_dec : EqDecision job_status.
Proof. solve_decision. Defined.

(** The object literal [{ message: err.message, code: err.code }]. *)
Record job_error := JobError {
  je_message : string;
  je_code : option string;
}.

(** Timestamps are kept as the millisecond count that [toISOString] renders
    and [new Date(...)] reads back. *)
Record job := Job {
  job_id : string;
  job_status_of : job_status;
  job_createdAt : Z;
  job_completedAt : option Z;
  job_videoUrl : string;
  job_videoMetadata : json;
  job_result : option upload_result;
  job_error_of : option job_error;
}.

(** An assignment to a property of the job object. *)
Inductive job_write :=
| SetStatus (s : job_status)
| SetCompletedAt (t : Z)
| SetResult (r : upload_result)
| SetError (e : job_error).

Definition apply_write (j : job) (w : job_write) : job :=
  match w with
  | SetStatus s =>
      {| job_id := job_id j; job_status_of := s; job_createdAt := job_createdAt j;
         job_completedAt := job_completedAt j; job_videoUrl := job_videoUrl j;
         job_videoMetadata := job_videoMetadata j; job_result := job_result j;
         job_error_of := job_error_of j |}
  | SetCompletedAt t =>
      {| job_id := job_id j; job_status_of := job_status_of j; job_createdAt := job_createdAt j;
         job_completedAt := Some t; job_videoUrl := job_videoUrl j;
         job_videoMetadata := job_videoMetadata j; job_result := job_result j;
         job_error_of := job_error_of j |}
  | SetResult r =>
      {| job_id := job_id j; job_status_of := job_status_of j; job_createdAt := job_createdAt j;
         job_completedAt := job_completedAt j; job_videoUrl := job_videoUrl j;
         job_videoMetadata := job_videoMetadata j; job_result := Some r;
         job_error_of := job_error_of j |}
  | SetError e =>
      {| job_id := job_id j; job_status_of := job_status_of j; job_createdAt := job_createdAt j;
         job_completedAt := job_completedAt j; job_videoUrl := job_videoUrl j;
         job_videoMetadata := job_videoMetadata j; job_result := job_result j;
         job_error_of := Some e |}
  end.

(* ===================================================================== *)
(** ** Effects of the asynchronous code                                   *)
(* ===================================================================== *)

(** What an [async] function does that the rest of the process can see, in
    program order. *)
Inductive effect :=
| EHead                                   (* [getContentLength] issues its request *)
| EAttempt (attempt : Z)                  (* [attemptStreamUpload] is called *)
| ESleep (ms : Z)                         (* [setTimeout(r, ms)] is awaited *)
| EWrite (w : job_write).                 (* a property of the job is assigned *)

(** How the body of an [async] function ends.  [Hangs]: it awaits a promise
    that is never settled. *)
Inductive completion (A : Type) :=
| Done (a : A)
| Throws (t : js_thrown)
| Hangs.
Arguments Done {A} a.
Arguments Throws {A} t.
Arguments Hangs {A}.

Definition M (A : Type) : Type := list effect * completion A.

Definition ret {A} (a : A) : M A := ([], Done a).
Definition throw {A} (t : js_thrown) : M A := ([], Throws t).
Definition tell (e : effect) : M unit := ([e], Done tt).

Definition bind {A B} (m : M A) (k : A -> M B) : M B :=
  match m with
  | (l, Done a) => let '(l', c) := k a in (l ++ l', c)
  | (l, Throws t) => (l, Throws t)
  | (l, Hangs) => (l, Hangs)
  end.

(** [try { m } catch (err) { h err }] *)
Definition try_catch {A} (m : M A) (h : js_thrown -> M A) : M A :=
  match m with
  | (l, Throws t) => let '(l', c) := h t in (l ++ l', c)
  | _ => m
  end.

(** [await p] *)
Definition await {A} (p : promise A) : M A :=
  match p with
  | PPending => ([], Hangs)
  | PResolved a => ret a
  | PRejected e => throw (Thrown e)
  end.

Notation "x <- m ;; k" := (bind m (fun x => k))
  (at level 100, m at next level, right associativity).
Notation "m ;;; k" := (bind m (fun _ => k))
  (at level 100, right associativity).

(** Reading a property of [undefined]. *)
Definition TypeError_undefined (prop : string) : js_error :=
  new_Error ("Cannot read properties of undefined (reading '" +:+ prop +:+ "')").

(* ===================================================================== *)
(** ** streamVideoToYouTube                                               *)
(* ===================================================================== *)

Definition maxRetries : Z := 3.

(** [err.statusCode >= 500 || err.statusCode === 308 ||
     err.code === 'ECONNRESET' || err.code === 'ETIMEDOUT'];
    a comparison with [undefined] is false. *)
Definition isRetryable (err : js_error) : bool :=
  match statusCode err with Some s => 500 <=? s | None => false end
  || match statusCode err with Some s => s =? 308 | None => false end
  || match code err with Some c => String.eqb c "ECONNRESET" | None => false end
  || match code err with Some c => String.eqb c "ETIMEDOUT" | None => false end.

(** [Math.min(1000 * Math.pow(2, attempt), 10000)] *)
Definition backoff_delay (attempt : Z) : Z := Z.min (1000 * 2 ^ attempt) 10000.

(** How one turn of the [for] loop ends. *)
Inductive loop_exit :=
| Return (r : upload_result)
| Continue (lastError : js_error).

Section Orchestrator.
Context `{JsBuiltins}.

(** Events of the [attempt]-th call of [attemptStreamUpload], as the runtime
    will fire them. *)
Variable relay_events : Z -> list relay_event.

(** The [for] loop over [attempt = 1 .. maxRetries], by the attempts still to
    run; [lastError] is the variable of that name. *)
Fixpoint retry_loop (attempts : list Z) (lastError : js_thrown) : M upload_result :=
  match attempts with
  | [] => throw lastError
  | attempt :: rest =>
      x <- try_catch
             (tell (EAttempt attempt) ;;;
              result <- await (attemptStreamUpload (relay_events attempt)) ;;
              ret (Return result))
             (fun err =>
                match err with
                | Thrown e =>
                    if negb (isRetryable e) || (attempt =? maxRetries) then throw err
                    else
                      tell (ESleep (backoff_delay attempt)) ;;;
                      ret (Continue e)
                | ThrownUndefined => throw (Thrown (TypeError_undefined "statusCode"))
                end) ;;
      match x with
      | Return result => ret result
      | Continue e => retry_loop rest (Thrown e)
      end
  end.

Definition streamVideoToYouTube : M upload_result :=
  retry_loop (seqZ 1 maxRetries) ThrownUndefined.

End Orchestrator.

(* ===================================================================== *)
(** ** POST /upload and runUpload                                         *)
(* ===================================================================== *)

(** The destructured request body.  [None] is a missing property. *)
Record request := Request {
  videoUrl : option string;
  uploadUrl : option string;
  oauthToken : option string;
  videoMetadata : option json;
  contentLength : option js_number;
  contentType : option string;
  sync : bool;
}.

(** What the runtime supplies while one request is served. *)
Record environment := Environment {
  date_now : Z;                           (* [Date.now()] *)
  random36 : string;                      (* [Math.random().toString(36)] *)
  created_time : Z;                       (* [new Date()] when the job is built *)
  completed_time : Z;                     (* [new Date()] when [runUpload] ends *)
  head_events : list head_event;
  relay_events : Z -> list relay_event;
}.

(** [!s] on a string-valued property. *)
Definition missing (s : option string) : bool :=
  match s with
  | None => true
  | Some s => String.eqb s EmptyString
  end.

(** [s.slice(b, e)] for [0 <= b <= e]. *)
Definition slice (b e : nat) (s : string) : string := substring b (e - b) s.

(** [`job_${Date.now()}_${Math.random().toString(36).slice(2, 9)}`] *)
Definition jobId (now : Z) (rnd36 : string) : string :=
  "job_" +:+ dec now +:+ "_" +:+ slice 2 9 rnd36.

Definition new_job (req : request) (env : environment) : job :=
  {| job_id := jobId (date_now env) (random36 env);
     job_status_of := Pending;
     job_createdAt := created_time env;
     job_completedAt := None;
     job_videoUrl := default EmptyString (videoUrl req);
     job_videoMetadata := or_null (videoMetadata req);
     job_result := None;
     job_error_of := None |}.

Section Handler.
Context `{JsBuiltins}.

Definition runUpload (req : request) (env : environment) : M unit :=
  tell (EWrite (SetStatus Downloading)) ;;;
  try_catch
    (resolvedContentLength <-
       match contentLength req with
       | Some n => ret n
       | None => tell EHead ;;; await (getContentLength (head_events env))
       end ;;
     tell (EWrite (SetStatus Uploading)) ;;;
     result <- streamVideoToYouTube (relay_events env) ;;
     tell (EWrite (SetStatus Completed)) ;;;
     tell (EWrite (SetCompletedAt (completed_time env))) ;;;
     tell (EWrite (SetResult result)))
    (fun err =>
       tell (EWrite (SetStatus Failed)) ;;;
       tell (EWrite (SetCompletedAt (completed_time env))) ;;;
       match err with
       | Thrown e => tell (EWrite (SetError {| je_message := message e; je_code := code e |}))
       | ThrownUndefined => throw (Thrown (TypeError_undefined "message"))
       end).

(** The [.catch] of the synchronous mode: runs when [runUpload()] rejects. *)
Definition sync_catch (m : M unit) : M unit :=
  try_catch m
    (fun err =>
       tell (EWrite (SetStatus Failed)) ;;;
       match err with
       | Thrown e => tell (EWrite (SetError {| je_message := message e; je_code := None |}))
       | ThrownUndefined => throw (Thrown (TypeError_undefined "message"))
       end).

(** Everything done to the job of an accepted request, in program order. *)
Definition job_run (req : request) (env : environment) : M unit :=
  if sync req then sync_catch (runUpload req env) else runUpload req env.

End Handler.

(** The assignments to the job among the effects. *)
Definition writes (log : list effect) : list job_write :=
  omap (fun e => match e with EWrite w => Some w | _ => None end) log.

(** The attempts started among the effects. *)
Definition attempts_of (log : list effect) : list Z :=
  omap (fun e => match e with EAttempt n => Some n | _ => None end) log.

(** The job after each assignment, the job as created first. *)
Fixpoint history (j : job) (ws : list job_write) : list job :=
  j :: match ws with
       | [] => []
       | w :: ws' => history (apply_write j w) ws'
       end.

(** The values [job.status] takes, in order: the initial one, then every
    value assigned. *)
Definition status_sequence (j : job) (ws : list job_write) : list job_status :=
  job_status_of j ::
  omap (fun w => match w with SetStatus s => Some s | _ => None end) ws.

(* ===================================================================== *)
(** ** The job store and its periodic clean-up                           *)
(* ===================================================================== *)

(** A [Map] from job id to job, in insertion order, keys unique. *)
Definition store := list (string * job).

Fixpoint Map_set (k : string) (v : job) (m : store) : store :=
  match m with
  | [] => [(k, v)]
  | (k', v') :: m' => if String.eqb k k' then (k, v) :: m' else (k', v') :: Map_set k v m'
  end.

Fixpoint Map_get (k : string) (m : store) : option job :=
  match m with
  | [] => None
  | (k', v) :: m' => if String.eqb k k' then Some v else Map_get k m'
  end.

Definition Map_delete (k : string) (m : store) : store :=
  filter (λ e, e.1 ≠ k) m.

(** [Array.prototype.sort(cmp)]: a stable sort; [x] goes before [y] when
    [cmp x y <= 0] and [x] came first. *)
Fixpoint sort_insert {A} (cmp : A -> A -> Z) (x : A) (l : list A) : list A :=
  match l with
  | [] => [x]
  | y :: l' => if cmp x y <=? 0 then x :: y :: l' else y :: sort_insert cmp x l'
  end.

Definition Array_sort {A} (cmp : A -> A -> Z) (l : list A) : list A :=
  foldr (sort_insert cmp) [] l.

(** [(a, b) => new Date(a[1].createdAt) - new Date(b[1].createdAt)] *)
Definition by_createdAt (a b : string * job) : Z :=
  job_createdAt a.2 - job_createdAt b.2.

(** The callback of [setInterval(..., 60000)]. *)
Definition cleanup (jobs : store) : store :=
  if 100 <? Z.of_nat (length jobs) then
    let entries := Array_sort by_createdAt jobs in
    let toDelete := take (length entries - 100)%nat entries in
    fold_left (fun m e => Map_delete e.1 m) toDelete jobs
  else jobs.

(** The part of [POST /upload] that touches the store: a rejected request
    leaves it alone, an accepted one registers its job. *)
Definition accepted (req : request) : bool :=
  negb (missing (videoUrl req) || missing (uploadUrl req) || missing (oauthToken req)).

Definition post_upload (jobs : store) (req : request) (env : environment) : store :=
  if accepted req then
    let job := new_job req env in
    Map_set (job_id job) job jobs
  else jobs.

(** The HEAD requests issued among the effects. *)
Definition probes_of (log : list effect) : list unit :=
  omap (fun e => match e with EHead => Some tt | _ => None end) log.



(** The assignments [runUpload] can make to its job, start to end. *)
Inductive run_shape (t : Z) : list job_write → Prop :=
| shape_resolving :
    run_shape t [SetStatus Downloading]
| shape_unresolved e :
    run_shape t [SetStatus Downloading; SetStatus Failed; SetCompletedAt t; SetError e]
| shape_transferring :
    run_shape t [SetStatus Downloading; SetStatus Uploading]
| shape_completed r :
    run_shape t [SetStatus Downloading; SetStatus Uploading;
                 SetStatus Completed; SetCompletedAt t; SetResult r]
| shape_failed e :
    run_shape t [SetStatus Downloading; SetStatus Uploading;
                 SetStatus Failed; SetCompletedAt t; SetError e].

(* ===================================================================== *)
(** ** Sample requests and runs                                           *)
(* ===================================================================== *)

Definition dquote : string := String (ascii_of_nat 34) EmptyString.

(** The response body [{ id : abc123 }] as the destination sends it, with
    its double quotes. *)
Definition sample_body : string :=
  "{" +:+ dquote +:+ "id" +:+ dquote +:+ ":" +:+ dquote +:+ "abc123" +:+ dquote +:+ "}".

(** The built-ins at the strings the samples use. *)
Definition sample_builtins : JsBuiltins :=
  {| JSON_parse := fun s =>
       if String.eqb s sample_body then Some (JObject [("id"%string, JString "abc123")])
       else None;
     parseInt10 := fun s => if String.eqb s "1000" then JsNum 1000 else JsNaN |}.

Definition sample_request (len : option js_number) : request :=
  {| videoUrl := Some "https://cdn.example/video.webm"%string;
     uploadUrl := Some "https://upload.example/session/1"%string;
     oauthToken := Some "token"%string;
     videoMetadata := None;
     contentLength := len;
     contentType := None;
     sync := false |}.

(** One attempt: the source answers 200, the destination ends with
    [status] after sending [chunks]. *)
Definition exchange (status : Z) (chunks : list string) : list relay_event :=
  SourceResponse 200 :: DestResponse status :: (DestData <$> chunks) ++ [DestEnd].

Definition sample_env (head : list head_event) (relay : Z → list relay_event) : environment :=
  {| date_now := 1700000000000;
     random36 := "0.4fzyo82mvyr";
     created_time := 1700000000000;
     completed_time := 1700000004500;
     head_events := head;
     relay_events := relay |}.

(** The source reports no length and the request carries none. *)
Definition env_no_length : environment :=
  sample_env [HeadResponse None] (fun _ => exchange 201 [sample_body]).

(** The destination answers 503 every time. *)
Definition env_unavailable : environment :=
  sample_env [] (fun _ => exchange 503 []).

(** Two 503 answers, then 201. *)
Definition env_third_time : environment :=
  sample_env [] (fun n => if n =? 3 then exchange 201 [sample_body] else exchange 503 []).

(** The destination answers 200 where 201 is expected. *)
Definition env_plain_ok : environment :=
  sample_env [] (fun _ => exchange 200 [sample_body]).

(** The source answers 503. *)
Definition env_source_down : environment :=
  sample_env [] (fun _ => [SourceResponse 503]).

(** The destination answers 201 with an empty body. *)
Definition env_empty_body : environment :=
  sample_env [] (fun _ => exchange 201 []).

(** A store filled by 101 accepted requests, one per millisecond. *)
Definition sample_store : store :=
  foldl (fun jobs n =>
           post_upload jobs (sample_request None)
             {| date_now := 1700000000000 + n;
                random36 := "0.4fzyo82mvyr";
                created_time := 1700000000000 + n;
                completed_time := 1700000004500 + n;
                head_events := [];
                relay_events := fun _ => [] |})
        [] (seqZ 0 101).

(** Two requests accepted in the same millisecond, whose random draws agree
    on the seven digits that [slice(2, 9)] keeps. *)
Definition first_request : request :=
  {| videoUrl := Some "https://cdn.example/first.webm"%string;
     uploadUrl := Some "https://upload.example/session/1"%string;
     oauthToken := Some "token"%string;
     videoMetadata := None;
     contentLength := Some (JsNum 1000);
     contentType := None;
     sync := false |}.

Definition second_request : request :=
  {| videoUrl := Some "https://cdn.example/second.webm"%string;
     uploadUrl := Some "https://upload.example/session/2"%string;
     oauthToken := Some "token"%string;
     videoMetadata := None;
     contentLength := Some (JsNum 2000);
     contentType := None;
     sync := false |}.

Definition first_env : environment :=
  {| date_now := 1700000000000; random36 := "0.4fzyo82mvyr";
     created_time := 1700000000000; completed_time := 1700000004500;
     head_events := []; relay_events := fun _ => exchange 201 [sample_body] |}.

Definition second_env : environment :=
  {| date_now := 1700000000000; random36 := "0.4fzyo82k1pq";
     created_time := 1700000000000; completed_time := 1700000004800;
     head_events := []; relay_events := fun _ => exchange 201 [sample_body] |}.

(** No character of [s] is [c]. *)
Fixpoint free_of (c : ascii) (s : string) : Prop :=
  match s with
  | EmptyString => True
  | String a s' => a ≠ c ∧ free_of c s'
  end.

(** The job of [env_third_time] once its third attempt has succeeded. *)
Definition sample_completed_job : job :=
  {| job_id := "job_1700000000000_4fzyo82";
     job_status_of := Completed;
     job_createdAt := 1700000000000;
     job_completedAt := Some 1700000004500;
     job_videoUrl := "https://cdn.example/video.webm";
     job_videoMetadata := JNull;
     job_result := Some {| r_statusCode := 201; videoId := JString "abc123";
                           rawResponse := Some sample_body |};
     job_error_of := None |}.

(** The error of an attempt that the destination answered with 503 and an
    empty body. *)
Definition sample_503 : js_error :=
  {| message := "YouTube upload failed: HTTP 503 - ";
     code := None; statusCode := Some 503; body := Some EmptyString |}.

(** The delays waited for among the effects. *)
Definition sleeps_of (log : list effect) : list Z :=
  omap (fun e => match e with ESleep ms => Some ms | _ => None end) log.

(** [chunks.join('')]: the chunks one after the other. *)
Definition join (chunks : list string) : string :=
  foldr String.append EmptyString chunks.

(** The job at every point where [runUpload] is suspended on I/O or a
    timer: JavaScript runs each callback to completion, so other requests -
    a poll of this job among them - are served only at these points. *)
Fixpoint suspended (j : job) (log : list effect) : list job :=
  match log with
  | [] => []
  | EWrite w :: log' => suspended (apply_write j w) log'
  | _ :: log' => j :: suspended j log'
  end.

(** The job after all the assignments among the effects. *)
Definition final_job (j : job) (log : list effect) : job :=
  foldl apply_write j (writes log).

(** The states of a job that a poll can read: at every suspension, and for
    good once the run has ended. *)
Definition pollable (j : job) (run : M unit) : list job :=
  suspended j run.1 ++
  match run.2 with
  | Done _ => [final_job j run.1]
  | _ => []
  end.

(* ===================================================================== *)
(** ** The routes                                                         *)
(* ===================================================================== *)

(** The JSON bodies the routes send. *)
Inductive response_body :=
| BodyMissingFields (error : string) (required : list string)
| BodyAccepted (jobId status message pollUrl : string)
| BodyJob (j : job)
| BodyNotFound (error : string) (jobId : string).

Record response := Response {
  res_status : Z;
  res_body : response_body;
}.

(** [GET /job/:id], on the store as it is when the poll is served. *)
Definition get_job (jobs : store) (id : string) : response :=
  match Map_get id jobs with
  | None => {| res_status := 404; res_body := BodyNotFound "Job not found" id |}
  | Some job => {| res_status := 200; res_body := BodyJob job |}
  end.

Section Routes.
Context `{JsBuiltins}.

(** What [POST /upload] answers; [None] when it never does.  In the
    synchronous mode the answer is sent by the [.then] or the [.catch] of
    [runUpload()], with the job as it is by then. *)
Definition post_upload_response (req : request) (env : environment) : option response :=
  if negb (accepted req) then
    Some {| res_status := 400;
            res_body := BodyMissingFields "Missing required fields"
                          ["videoUrl"; "uploadUrl"; "oauthToken"]%string |}
  else
    let job := new_job req env in
    if sync req then
      match runUpload req env with
      | (log, Done _) =>
          let job := final_job job log in
          if decide (job_status_of job = Completed)
          then Some {| res_status := 201; res_body := BodyJob job |}
          else Some {| res_status := 500; res_body := BodyJob job |}
      | (log, Throws (Thrown _)) =>
          Some {| res_status := 500;
                  res_body := BodyJob (final_job job (sync_catch (runUpload req env)).1) |}
      | (log, Throws ThrownUndefined) => None
      | (log, Hangs) => None
      end
    else
      Some {| res_status := 202;
              res_body := BodyAccepted (job_id job) "accepted"
                            "Upload started. Poll GET /job/:id for status."
                            ("/job/" +:+ job_id job) |}.

End Routes.

(* ===================================================================== *)
(** * Properties                                                          *)
(* ===================================================================== *)

(** ** Promises are settled once *)

Lemma settle_settled {A} (p q : promise A) : p ≠ PPending → settle p q = p.
Proof. by destruct p. Qed.

Lemma settle_pending {A} (q : promise A) : settle PPending q = q.
Proof. done. Qed.

Section RelayFacts.
Context `{JsBuiltins}.

Lemma relay_handler_settled st ev :
  settled st ≠ PPending → settled (relay_handler st ev) = settled st.
Proof.
  intros Hs. destruct ev; simpl; repeat case_match; simpl;
    rewrite ?settle_settled; done.
Qed.

Lemma relay_run_settled evs st :
  settled st ≠ PPending → settled (relay_run st evs) = settled st.
Proof.
  revert st. induction evs as [|ev evs IH]; intros st Hs; [done|].
  simpl. rewrite IH; rewrite relay_handler_settled; done.
Qed.

Lemma relay_run_app st evs evs' :
  relay_run st (evs ++ evs') = relay_run (relay_run st evs) evs'.
Proof. apply fold_left_app. Qed.

(** The first event that settles the promise decides the attempt. *)
Lemma attempt_decided pre ev post q :
  settled (relay_run relay_init pre) = PPending →
  settled (relay_handler (relay_run relay_init pre) ev) = q →
  q ≠ PPending →
  attemptStreamUpload (pre ++ ev :: post) = q.
Proof.
  intros _ Hq Hne. unfold attemptStreamUpload.
  rewrite relay_run_app. simpl. rewrite relay_run_settled; congruence.
Qed.

(** A resolved attempt was resolved by an ['end'] of a 201 response. *)
Lemma relay_handler_resolved st ev r :
  settled st = PPending →
  settled (relay_handler st ev) = PResolved r →
  ev = DestEnd ∧ ∃ body, putRes st = Some (201, body) ∧ on_end 201 body = PResolved r.
Proof.
  intros Hp.
  destruct ev; simpl; try (repeat case_match; simpl; rewrite ?Hp; simpl; congruence).
  destruct (putRes st) as [[status bd]|]; simpl; [|congruence].
  rewrite Hp. simpl. unfold on_end.
  destruct (Z.eqb_spec status 201) as [->|Hne].
  - intros Hr. split; [done|]. exists bd. done.
  - destruct (status =? 308); congruence.
Qed.

Lemma relay_run_resolved evs st r :
  settled st = PPending →
  settled (relay_run st evs) = PResolved r →
  ∃ pre post body,
    evs = pre ++ DestEnd :: post ∧
    settled (relay_run st pre) = PPending ∧
    putRes (relay_run st pre) = Some (201, body) ∧
    on_end 201 body = PResolved r.
Proof.
  revert st. induction evs as [|ev evs IH]; intros st Hp Hr.
  { simpl in Hr. congruence. }
  simpl in Hr.
  destruct (settled (relay_handler st ev)) as [|r'|e] eqn:Hs.
  - destruct (IH _ Hs Hr) as (pre & post & bd & -> & ? & ? & ?).
    exists (ev :: pre), post, bd. done.
  - rewrite relay_run_settled in Hr by congruence.
    rewrite Hs in Hr. injection Hr as ->.
    destruct (relay_handler_resolved _ _ _ Hp Hs) as [-> (bd & ? & ?)].
    exists [], evs, bd. done.
  - rewrite relay_run_settled in Hr by congruence. congruence.
Qed.

End RelayFacts.

Section OrchestratorFacts.
Context `{JsBuiltins}.

Lemma stream_unfold (ev : Z → list relay_event) :
  streamVideoToYouTube ev =
    match attemptStreamUpload (ev 1) with
    | PPending => ([EAttempt 1], Hangs)
    | PResolved r => ([EAttempt 1], Done r)
    | PRejected e1 =>
        if isRetryable e1 then
          match attemptStreamUpload (ev 2) with
          | PPending => ([EAttempt 1; ESleep 2000; EAttempt 2], Hangs)
          | PResolved r => ([EAttempt 1; ESleep 2000; EAttempt 2], Done r)
          | PRejected e2 =>
              if isRetryable e2 then
                match attemptStreamUpload (ev 3) with
                | PPending =>
                    ([EAttempt 1; ESleep 2000; EAttempt 2; ESleep 4000; EAttempt 3], Hangs)
                | PResolved r =>
                    ([EAttempt 1; ESleep 2000; EAttempt 2; ESleep 4000; EAttempt 3], Done r)
                | PRejected e3 =>
                    ([EAttempt 1; ESleep 2000; EAttempt 2; ESleep 4000; EAttempt 3],
                     Throws (Thrown e3))
                end
              else ([EAttempt 1; ESleep 2000; EAttempt 2], Throws (Thrown e2))
          end
        else ([EAttempt 1], Throws (Thrown e1))
    end.
Proof.
  unfold streamVideoToYouTube. 
  change (seqZ 1 maxRetries) with [1; 2; 3]. simpl.
  destruct (attemptStreamUpload (ev 1)) as [|r1|e1]; simpl; try done.
  destruct (isRetryable e1); simpl; [|done].
  destruct (attemptStreamUpload (ev 2)) as [|r2|e2]; simpl; try done.
  destruct (isRetryable e2); simpl; [|done].
  destruct (attemptStreamUpload (ev 3)) as [|r3|e3]; simpl; try done.
  destruct (isRetryable e3); simpl; done.
Qed.
End OrchestratorFacts.

(** Case analysis on the outcomes of the three attempts. *)
Ltac retryable_cases :=
  match goal with
  | |- context [isRetryable ?e] =>
      let Hr := fresh "Hr" in destruct (isRetryable e) eqn:Hr
  end.

Ltac stream_cases ev :=
  rewrite (stream_unfold ev);
  let Ha1 := fresh "Ha1" in let Ha2 := fresh "Ha2" in let Ha3 := fresh "Ha3" in
  destruct (attemptStreamUpload (ev 1)) as [|?r|?e] eqn:Ha1;
    [ | | retryable_cases;
          [ destruct (attemptStreamUpload (ev 2)) as [|?r|?e] eqn:Ha2;
            [ | | retryable_cases;
                  [ destruct (attemptStreamUpload (ev 3)) as [|?r|?e] eqn:Ha3 | ] ] | ] ].

(** Case analysis on everything [runUpload] awaits. *)
Ltac job_cases req env :=
  unfold job_run, sync_catch, runUpload;
  destruct (sync req);
  (destruct (contentLength req) as [?n|] eqn:?Hcl;
   [ | destruct (getContentLength (head_events env)) as [|?n|?e] eqn:?Hhead ]);
  stream_cases (relay_events env); simpl.

(** Membership in a list that is written out. *)
Ltac in_list :=
  repeat match goal with
  | H : _ ∈ [] |- _ => apply elem_of_nil in H; destruct H
  | H : _ ∈ _ :: _ |- _ => apply elem_of_cons in H; destruct H as [H|H]
  end.


Section StreamFacts.
Context `{JsBuiltins}.
Variable ev : Z → list relay_event.

(** The loop never leaves through the [throw lastError] below it, and the
    transfer stage writes nothing to the job. *)
Lemma stream_throws_error t :
  (streamVideoToYouTube ev).2 = Throws t → ∃ e, t = Thrown e.
Proof. stream_cases ev; simpl; intros; simplify_eq; eauto. Qed.

Lemma stream_writes : writes (streamVideoToYouTube ev).1 = [].
Proof. stream_cases ev; done. Qed.

Lemma stream_attempts :
  ∃ k, (1 ≤ k ≤ 3)%nat ∧ attempts_of (streamVideoToYouTube ev).1 = seqZ 1 (Z.of_nat k).
Proof.
  stream_cases ev; simpl;
    first [ exists 1%nat; split; [lia|reflexivity]
          | exists 2%nat; split; [lia|reflexivity]
          | exists 3%nat; split; [lia|reflexivity] ].
Qed.

Lemma stream_retried_retryable n :
  n ∈ attempts_of (streamVideoToYouTube ev).1 →
  n + 1 ∈ attempts_of (streamVideoToYouTube ev).1 →
  ∃ e, attemptStreamUpload (ev n) = PRejected e ∧ isRetryable e = true.
Proof.
  stream_cases ev; simpl; intros Hn Hn'; in_list; subst; try lia; eauto.
Qed.

Lemma stream_retried n e :
  n ∈ attempts_of (streamVideoToYouTube ev).1 →
  n < maxRetries →
  attemptStreamUpload (ev n) = PRejected e →
  isRetryable e = true →
  n + 1 ∈ attempts_of (streamVideoToYouTube ev).1.
Proof.
  unfold maxRetries.
  stream_cases ev; simpl; intros Hn Hlt He Hre; in_list; subst;
    first [ lia | congruence | rewrite !elem_of_cons; auto ].
Qed.

Lemma stream_nonretryable_stops n e :
  n ∈ attempts_of (streamVideoToYouTube ev).1 →
  attemptStreamUpload (ev n) = PRejected e →
  isRetryable e = false →
  last (attempts_of (streamVideoToYouTube ev).1) = Some n ∧
  (streamVideoToYouTube ev).2 = Throws (Thrown e).
Proof.
  stream_cases ev; simpl; intros Hn He Hnr; in_list; subst;
    first [ congruence | split; congruence ].
Qed.

Lemma stream_last_rejected n e :
  last (attempts_of (streamVideoToYouTube ev).1) = Some n →
  attemptStreamUpload (ev n) = PRejected e →
  (streamVideoToYouTube ev).2 = Throws (Thrown e).
Proof.
  stream_cases ev; simpl; intros Hn He; congruence.
Qed.

End StreamFacts.

(** [isRetryable], read off the properties of the error. *)
Lemma isRetryable_spec e :
  isRetryable e = true ↔
    (∃ s, statusCode e = Some s ∧ (500 ≤ s ∨ s = 308)) ∨
    code e = Some "ECONNRESET"%string ∨ code e = Some "ETIMEDOUT"%string.
Proof.
  unfold isRetryable. destruct e as [m c s b]; simpl.
  rewrite !orb_true_iff. split.
  - intros [[[Hs|Hs]|Hc]|Hc].
    + destruct s as [s|]; [|done]. left. exists s. split; [done|]. lia.
    + destruct s as [s|]; [|done]. left. exists s. split; [done|]. lia.
    + destruct c as [c|]; [|done]. apply String.eqb_eq in Hc. subst. auto.
    + destruct c as [c|]; [|done]. apply String.eqb_eq in Hc. subst. auto.
  - intros [(s' & -> & [Hs| ->])|[-> | ->]]; auto.
    left. left. left. lia.
Qed.

(* ===================================================================== *)
(** ** What one job goes through                                          *)
(* ===================================================================== *)

Section JobFacts.
Context `{JsBuiltins}.
Variables (req : request) (env : environment).

Lemma job_run_shape : run_shape (completed_time env) (writes (job_run req env).1).
Proof. job_cases req env; constructor. Qed.

(** [runUpload()] never rejects, so the [.catch] of the synchronous mode
    has nothing to handle. *)
Lemma job_run_sync_irrelevant : job_run req env = runUpload req env.
Proof. unfold job_run at 1. destruct (sync req); [|done]. job_cases req env; done. Qed.

Lemma job_run_no_throw t : (job_run req env).2 ≠ Throws t.
Proof. job_cases req env; done. Qed.

(** The transfers of a job are those of its one call of
    [streamVideoToYouTube], if it gets that far. *)
Lemma job_attempts :
  attempts_of (job_run req env).1 = [] ∨
  attempts_of (job_run req env).1 = attempts_of (streamVideoToYouTube (relay_events env)).1.
Proof. job_cases req env; auto. Qed.


Lemma job_last_attempt_error n e :
  last (attempts_of (job_run req env).1) = Some n →
  attemptStreamUpload (relay_events env n) = PRejected e →
  ∃ j, last (history (new_job req env) (writes (job_run req env).1)) = Some j ∧
       job_status_of j = Failed ∧
       job_error_of j = Some {| je_message := message e; je_code := code e |} ∧
       job_result j = None.
Proof.
  job_cases req env; intros Hn He; simplify_eq; try congruence;
    (eexists; split_and!; [reflexivity|reflexivity|simpl; congruence|reflexivity]).
Qed.

End JobFacts.

(* ===================================================================== *)
(** ** The retry policy                                                   *)
(* ===================================================================== *)

(** C1.  A job makes at most three transfer attempts, numbered 1, 2, 3.  An
    attempt is followed by another only if it failed with a retryable error
    (status at least 500, status 308, or error code ECONNRESET or ETIMEDOUT),
    and a retryable failure of attempt 1 or 2 is followed by the next
    attempt.  A non-retryable failure is the last attempt.  Whenever the last
    attempt made has failed - in particular when all three have - the job
    ends failed and its error is the message and code of that attempt's
    error. *)
Theorem retry_policy `{JsBuiltins} (req : request) (env : environment) :
  let attempt n := attemptStreamUpload (relay_events env n) in
  let log := (job_run req env).1 in
  (∃ k : nat, (k ≤ 3)%nat ∧ attempts_of log = seqZ 1 (Z.of_nat k)) ∧
  (∀ n, n ∈ attempts_of log → n + 1 ∈ attempts_of log →
        ∃ e, attempt n = PRejected e ∧ isRetryable e = true) ∧
  (∀ n e, n ∈ attempts_of log → n < maxRetries →
          attempt n = PRejected e → isRetryable e = true →
          n + 1 ∈ attempts_of log) ∧
  (∀ n e, n ∈ attempts_of log → attempt n = PRejected e → isRetryable e = false →
          last (attempts_of log) = Some n) ∧
  (∀ n e, last (attempts_of log) = Some n → attempt n = PRejected e →
          ∃ j, last (history (new_job req env) (writes log)) = Some j ∧
               job_status_of j = Failed ∧
               job_error_of j = Some {| je_message := message e; je_code := code e |}) ∧
  (∀ e, isRetryable e = true ↔
          (∃ s, statusCode e = Some s ∧ (500 ≤ s ∨ s = 308)) ∨
          code e = Some "ECONNRESET"%string ∨ code e = Some "ETIMEDOUT"%string).
Proof.
  intros attempt log. subst attempt log. split_and!.
  - destruct (job_attempts req env) as [-> | ->].
    + exists 0%nat. split; [lia|done].
    + destruct (stream_attempts (relay_events env)) as (k & Hk & ->).
      exists k. split; [lia|done].
  - intros n. destruct (job_attempts req env) as [-> | ->].
    + intros Hn. by apply elem_of_nil in Hn.
    + apply stream_retried_retryable.
  - intros n e. destruct (job_attempts req env) as [-> | ->].
    + intros Hn. by apply elem_of_nil in Hn.
    + apply stream_retried.
  - intros n e. destruct (job_attempts req env) as [-> | ->].
    + intros Hn. by apply elem_of_nil in Hn.
    + intros Hn He Hnr. by destruct (stream_nonretryable_stops (relay_events env) n e).
  - intros n e Hn He.
    destruct (job_last_attempt_error req env n e Hn He) as (j & ? & ? & ? & ?).
    eauto.
  - apply isRetryable_spec.
Qed.

Lemma retry_policy_witness :
  let req := sample_request (Some (JsNum 1000)) in
  let log := (@job_run sample_builtins req env_unavailable).1 in
  last (attempts_of log) = Some 3 ∧
  @attemptStreamUpload sample_builtins (relay_events env_unavailable 3) = PRejected sample_503 ∧
  ∃ j, last (history (new_job req env_unavailable) (writes log)) = Some j ∧
       job_status_of j = Failed ∧
       job_error_of j = Some {| je_message := "YouTube upload failed: HTTP 503 - ";
                                je_code := None |}.
Proof.
  split; [reflexivity|]. split; [reflexivity|].
  apply (proj1 (proj2 (proj2 (proj2 (proj2
           (@retry_policy sample_builtins (sample_request (Some (JsNum 1000)))
              env_unavailable))))) 3 sample_503); reflexivity.
Defined.



(* ===================================================================== *)
(** ** The life of a job                                                  *)
(* ===================================================================== *)




(** C3.  In every state a job goes through, [result] and [error] are not
    both set; both are null while the status is neither completed nor failed;
    [result] is set only in status completed and [error] only in status
    failed. *)
Theorem result_error_exclusive `{JsBuiltins} (req : request) (env : environment) (j : job) :
  j ∈ history (new_job req env) (writes (job_run req env).1) →
  ¬ (job_result j ≠ None ∧ job_error_of j ≠ None) ∧
  (job_status_of j ≠ Completed → job_status_of j ≠ Failed →
   job_result j = None ∧ job_error_of j = None) ∧
  (job_result j ≠ None → job_status_of j = Completed) ∧
  (job_error_of j ≠ None → job_status_of j = Failed).
Proof.
  destruct (job_run_shape req env); simpl; intros Hj; in_list; subst; simpl;
    (split_and!; [intros []; congruence | intros; split; congruence
                 | intros; congruence | intros; congruence ]).
Qed.

Lemma result_error_exclusive_witness :
  let req := sample_request (Some (JsNum 1000)) in
  sample_completed_job ∈
    history (new_job req env_third_time) (writes (@job_run sample_builtins req env_third_time).1) ∧
  ¬ (job_result sample_completed_job ≠ None ∧ job_error_of sample_completed_job ≠ None).
Proof.
  assert (sample_completed_job ∈
            history (new_job (sample_request (Some (JsNum 1000))) env_third_time)
              (writes (@job_run sample_builtins (sample_request (Some (JsNum 1000)))
                         env_third_time).1)) as Hin.
  { simpl. do 5 right. left. }
  split; [exact Hin|].
  apply (@result_error_exclusive sample_builtins (sample_request (Some (JsNum 1000)))
           env_third_time sample_completed_job Hin).
Defined.

(* ===================================================================== *)
(** ** Resolving the content length                                      *)
(* ===================================================================== *)

Section HeadFacts.
Context `{JsBuiltins}.

Lemma head_handler_settled p ev : p ≠ PPending → head_handler p ev = p.
Proof.
  intros Hp. destruct ev as [e|[len|]|e|]; simpl; by rewrite settle_settled.
Qed.

Lemma head_run_settled evs p : p ≠ PPending → fold_left head_handler evs p = p.
Proof.
  revert p. induction evs as [|ev evs IH]; intros p Hp; [done|].
  simpl. rewrite head_handler_settled by done. by apply IH.
Qed.

Lemma getContentLength_no_header rest :
  getContentLength (HeadResponse None :: rest) =
    PRejected (new_Error
      "Source URL does not provide Content-Length. Pass contentLength in the request body.").
Proof. unfold getContentLength. simpl. by rewrite head_run_settled. Qed.

End HeadFacts.

(** C4.  When the request carries no [contentLength] and the source answers
    the HEAD request without a Content-Length header, the job ends failed
    with the error that asks for [contentLength], [attemptStreamUpload] is
    never called, and the HEAD request is made once: the retry loop does not
    issue it at all. *)
Theorem size_unavailable `{JsBuiltins} (req : request) (env : environment)
    (rest : list head_event) :
  contentLength req = None →
  head_events env = HeadResponse None :: rest →
  let log := (job_run req env).1 in
  attempts_of log = [] ∧
  probes_of log = [tt] ∧
  probes_of (streamVideoToYouTube (relay_events env)).1 = [] ∧
  (job_run req env).2 = Done tt ∧
  ∃ j, last (history (new_job req env) (writes log)) = Some j ∧
       job_status_of j = Failed ∧
       job_result j = None ∧
       job_error_of j = Some
         {| je_message :=
              "Source URL does not provide Content-Length. Pass contentLength in the request body.";
            je_code := None |}.
Proof.
  intros Hlen Hhead log. subst log.
  assert (probes_of (streamVideoToYouTube (relay_events env)).1 = []) as Hp
    by (stream_cases (relay_events env); done).
  unfold job_run, sync_catch, runUpload.
  rewrite Hlen, Hhead, getContentLength_no_header.
  destruct (sync req); simpl; (split_and!; [done|done|done|done|]);
    eexists; split_and!; reflexivity.
Qed.

Lemma size_unavailable_witness :
  contentLength (sample_request None) = None ∧
  head_events env_no_length = [HeadResponse None] ∧
  attempts_of (@job_run sample_builtins (sample_request None) env_no_length).1 = [] ∧
  probes_of (@job_run sample_builtins (sample_request None) env_no_length).1 = [tt].
Proof.
  split; [reflexivity|]. split; [reflexivity|].
  split;
    apply (@size_unavailable sample_builtins (sample_request None) env_no_length []);
    reflexivity.
Defined.

(* ===================================================================== *)
(** ** How one attempt ends                                               *)
(* ===================================================================== *)

Section AttemptFacts.
Context `{JsBuiltins}.

(** A failure that is not retryable is the last attempt of its job, and the
    job ends failed with that error. *)
Lemma job_nonretryable_stops (req : request) (env : environment) n e :
  n ∈ attempts_of (job_run req env).1 →
  attemptStreamUpload (relay_events env n) = PRejected e →
  isRetryable e = false →
  last (attempts_of (job_run req env).1) = Some n ∧
  ∃ j, last (history (new_job req env) (writes (job_run req env).1)) = Some j ∧
       job_status_of j = Failed ∧
       job_error_of j = Some {| je_message := message e; je_code := code e |}.
Proof.
  intros Hn He Hnr.
  assert (last (attempts_of (job_run req env).1) = Some n) as Hlast.
  { destruct (job_attempts req env) as [Hj|Hj]; rewrite Hj in *.
    - by apply elem_of_nil in Hn.
    - by destruct (stream_nonretryable_stops (relay_events env) n e). }
  split; [done|].
  destruct (job_last_attempt_error req env n e Hlast He) as (j & ? & ? & ? & ?).
  eauto.
Qed.

Lemma on_end_resolved status body r :
  on_end status body = PResolved r → status = 201 ∧ r_statusCode r = 201.
Proof.
  unfold on_end. destruct (Z.eqb_spec status 201) as [->|?].
  - intros [= <-]. done.
  - destruct (status =? 308); done.
Qed.

Lemma on_end_other status body :
  status ≠ 201 → status ≠ 308 →
  on_end status body =
    PRejected {| message := "YouTube upload failed: HTTP " +:+ dec status +:+ " - " +:+ body;
                 code := None; statusCode := Some status; body := Some body |}.
Proof.
  intros H1 H2. unfold on_end.
  destruct (Z.eqb_spec status 201); [done|].
  destruct (Z.eqb_spec status 308); done.
Qed.

(** A job whose length is resolved makes attempt 1, and makes attempt
    [n] when every attempt before it was rejected with a retryable error. *)
Lemma job_reaches_attempt (req : request) (env : environment) n :
  contentLength req ≠ None ∨
    (∃ len, getContentLength (head_events env) = PResolved len) →
  1 ≤ n ≤ maxRetries →
  (∀ k, 1 ≤ k < n →
        ∃ e, attemptStreamUpload (relay_events env k) = PRejected e ∧ isRetryable e = true) →
  n ∈ attempts_of (job_run req env).1.
Proof.
  unfold maxRetries. intros Hres Hn Hbefore.
  assert (n = 1 ∨ n = 2 ∨ n = 3) as Hcases by lia.
  assert (2 ≤ n → ∃ e, attemptStreamUpload (relay_events env 1) = PRejected e ∧
                       isRetryable e = true) as H1
    by (intros; apply Hbefore; lia).
  assert (3 ≤ n → ∃ e, attemptStreamUpload (relay_events env 2) = PRejected e ∧
                       isRetryable e = true) as H2
    by (intros; apply Hbefore; lia).
  clear Hbefore Hn. revert Hres H1 H2.
  job_cases req env; intros Hres H1 H2;
    try (destruct Hres as [Hres|[len Hres]]; congruence);
    destruct Hcases as [->|[->| ->]];
    try (rewrite !elem_of_cons; by auto);
    try (destruct H1 as (e' & ? & ?); [lia|congruence]);
    try (destruct H2 as (e' & ? & ?); [lia|congruence]).
Qed.

End AttemptFacts.

(** C9.  An attempt resolves only through the end of a destination response
    whose status is 201.  When the response that settles the attempt ends
    with another status of the success range, the attempt is rejected with an
    error whose [statusCode] is that status; the error is not retryable, so
    this attempt is the last of its job and the job ends failed with it.
    The job does make the attempt whenever its content length is resolved and
    every earlier attempt was rejected with a retryable error; it then ends
    failed, with that error and no result, and never starts attempt
    [n + 1]. *)
Theorem only_201_succeeds `{JsBuiltins} (req : request) (env : environment) (n : Z) :
  (∀ r, attemptStreamUpload (relay_events env n) = PResolved r →
        r_statusCode r = 201 ∧
        ∃ pre post body,
          relay_events env n = pre ++ DestEnd :: post ∧
          settled (relay_run relay_init pre) = PPending ∧
          putRes (relay_run relay_init pre) = Some (201, body)) ∧
  (∀ pre post status body,
      relay_events env n = pre ++ DestEnd :: post →
      settled (relay_run relay_init pre) = PPending →
      putRes (relay_run relay_init pre) = Some (status, body) →
      200 ≤ status < 300 → status ≠ 201 →
      ∃ e, attemptStreamUpload (relay_events env n) = PRejected e ∧
           statusCode e = Some status ∧
           isRetryable e = false ∧
           (n ∈ attempts_of (job_run req env).1 →
            last (attempts_of (job_run req env).1) = Some n ∧
            ∃ j, last (history (new_job req env) (writes (job_run req env).1)) = Some j ∧
                 job_status_of j = Failed ∧
                 job_error_of j = Some {| je_message := message e; je_code := None |}) ∧
           (contentLength req ≠ None ∨
              (∃ len, getContentLength (head_events env) = PResolved len) →
            1 ≤ n ≤ 3 →
            (∀ k, 1 ≤ k < n →
                  ∃ e', attemptStreamUpload (relay_events env k) = PRejected e' ∧
                        isRetryable e' = true) →
            n ∈ attempts_of (job_run req env).1 ∧
            (n + 1 ∉ attempts_of (job_run req env).1) ∧
            last (attempts_of (job_run req env).1) = Some n ∧
            ∃ j, last (history (new_job req env) (writes (job_run req env).1)) = Some j ∧
                 job_status_of j = Failed ∧
                 job_result j = None ∧
                 job_error_of j = Some {| je_message := message e; je_code := None |})).
Proof.
  split.
  - intros r Hr. unfold attemptStreamUpload in Hr.
    destruct (relay_run_resolved (relay_events env n) relay_init r eq_refl Hr) as (pre & post & bd & ? & ? & ? & Hend).
    apply on_end_resolved in Hend as [_ ?]. split; [done|]. by exists pre, post, bd.
  - intros pre post status bd Hev Hpend Hput Hrange Hne.
    set (e := {| message := "YouTube upload failed: HTTP " +:+ dec status +:+ " - " +:+ bd;
                 code := None; statusCode := Some status; body := Some bd |}).
    assert (attemptStreamUpload (relay_events env n) = PRejected e) as He.
    { rewrite Hev. apply attempt_decided; [done| |done].
      simpl. rewrite Hput. simpl. rewrite Hpend. simpl.
      apply on_end_other; lia. }
    assert (isRetryable e = false) as Hnr.
    { unfold isRetryable. simpl.
      destruct (Z.leb_spec 500 status); [lia|].
      destruct (Z.eqb_spec status 308); [lia|]. done. }
    exists e. split_and!; [done|done|done| |].
    + intros Hn. by apply job_nonretryable_stops.
    + intros Hres Hn Hbefore.
      pose proof (job_reaches_attempt req env n Hres Hn Hbefore) as Hin.
      destruct (job_nonretryable_stops req env n e Hin He Hnr) as [Hlast _].
      destruct (job_last_attempt_error req env n e Hlast He) as (j & Hj & Hs & Herr & Hres').
      split_and!; [done| |done|by exists j].
      intros Hin'.
      destruct (job_attempts req env) as [Hj'|Hj']; rewrite Hj' in *.
      { by apply elem_of_nil in Hin. }
      destruct (stream_retried_retryable (relay_events env) n Hin Hin') as (e' & He' & Hre).
      congruence.
Qed.

Lemma only_201_succeeds_witness :
  let req := sample_request (Some (JsNum 1000)) in
  let log := (@job_run sample_builtins req env_plain_ok).1 in
  ∃ e, @attemptStreamUpload sample_builtins (relay_events env_plain_ok 1) = PRejected e ∧
       statusCode e = Some 200 ∧
       isRetryable e = false ∧
       1 ∈ attempts_of log ∧
       (1 + 1 ∉ attempts_of log) ∧
       last (attempts_of log) = Some 1 ∧
       ∃ j, last (history (new_job req env_plain_ok) (writes log)) = Some j ∧
            job_status_of j = Failed ∧
            job_result j = None ∧
            job_error_of j = Some {| je_message := message e; je_code := None |}.
Proof.
  intros req log.
  destruct (proj2 (@only_201_succeeds sample_builtins req env_plain_ok 1)
              [SourceResponse 200; DestResponse 200; DestData sample_body] [] 200 sample_body
              eq_refl eq_refl eq_refl ltac:(lia) ltac:(lia))
    as (e & He & Hs & Hnr & _ & Hjob).
  exists e. split; [exact He|]. split; [exact Hs|]. split; [exact Hnr|].
  apply Hjob.
  - left. discriminate.
  - lia.
  - intros k Hk. lia.
Defined.

(** C10.  When the source answers the download with a status of 400 or more
    and the attempt is still undecided, the attempt is rejected with an
    error that has no [statusCode] and no [code].  It is not retryable
    whatever the status, so the attempt is the last of its job and the job
    ends failed with that error. *)
Theorem source_error_not_retried `{JsBuiltins} (req : request) (env : environment)
    (n : Z) (pre post : list relay_event) (status : Z) :
  relay_events env n = pre ++ SourceResponse status :: post →
  settled (relay_run relay_init pre) = PPending →
  400 ≤ status →
  ∃ e, attemptStreamUpload (relay_events env n) = PRejected e ∧
       message e = "Failed to download video: HTTP " +:+ dec status ∧
       statusCode e = None ∧
       code e = None ∧
       isRetryable e = false ∧
       (n ∈ attempts_of (job_run req env).1 →
        (n + 1 ∉ attempts_of (job_run req env).1) ∧
        last (attempts_of (job_run req env).1) = Some n ∧
        ∃ j, last (history (new_job req env) (writes (job_run req env).1)) = Some j ∧
             job_status_of j = Failed ∧
             job_error_of j = Some {| je_message := message e; je_code := None |}).
Proof.
  intros Hev Hpend Hstatus.
  set (e := new_Error ("Failed to download video: HTTP " +:+ dec status)).
  assert (attemptStreamUpload (relay_events env n) = PRejected e) as He.
  { rewrite Hev. apply attempt_decided; [done| |done].
    simpl. destruct (Z.leb_spec 400 status); [|lia].
    simpl. by rewrite Hpend. }
  exists e. split_and!; try done.
  intros Hn.
  destruct (job_nonretryable_stops req env n e Hn He eq_refl) as [Hlast Hj].
  split_and!; [|done|done].
  intros Hn'.
  destruct (job_attempts req env) as [Hj'|Hj']; rewrite Hj' in *.
  { by apply elem_of_nil in Hn. }
  destruct (stream_retried_retryable (relay_events env) n Hn Hn') as (e' & He' & Hre).
  rewrite He in He'. injection He' as <-. done.
Qed.

Lemma source_error_not_retried_witness :
  ∃ e, @attemptStreamUpload sample_builtins (relay_events env_source_down 1) = PRejected e ∧
       message e = "Failed to download video: HTTP " +:+ dec 503 ∧
       statusCode e = None ∧
       code e = None ∧
       isRetryable e = false ∧
       (1 ∈ attempts_of (@job_run sample_builtins (sample_request (Some (JsNum 1000)))
                           env_source_down).1 →
        (1 + 1 ∉ attempts_of (@job_run sample_builtins (sample_request (Some (JsNum 1000)))
                              env_source_down).1) ∧
        last (attempts_of (@job_run sample_builtins (sample_request (Some (JsNum 1000)))
                             env_source_down).1) = Some 1 ∧
        ∃ j, last (history (new_job (sample_request (Some (JsNum 1000))) env_source_down)
                     (writes (@job_run sample_builtins (sample_request (Some (JsNum 1000)))
                                env_source_down).1)) = Some j ∧
             job_status_of j = Failed ∧
             job_error_of j = Some {| je_message := message e; je_code := None |}).
Proof.
  apply (@source_error_not_retried sample_builtins (sample_request (Some (JsNum 1000)))
           env_source_down 1 [] [] 503); [reflexivity | reflexivity | lia].
Defined.

Lemma length_zero_empty (s : string) : (0 <? Z.of_nat (String.length s)) = false ↔ s = EmptyString.
Proof.
  destruct s; simpl; split; done.
Qed.

(** C5, as stated, fails on an empty response body: the attempt resolves,
    but the value holds no raw body ([rawResponse] is [undefined]). *)
Lemma raw_body_counterexample :
  let pre := [SourceResponse 200; DestResponse 201] in
  settled (@relay_run sample_builtins relay_init pre) = PPending ∧
  putRes (@relay_run sample_builtins relay_init pre) = Some (201, EmptyString) ∧
  @attemptStreamUpload sample_builtins (pre ++ [DestEnd]) =
    PResolved {| r_statusCode := 201; videoId := JNull; rawResponse := None |} ∧
  ¬ ∃ r, @attemptStreamUpload sample_builtins (pre ++ [DestEnd]) = PResolved r ∧
         rawResponse r = Some EmptyString.
Proof.
  split_and!; [reflexivity..|].
  intros (r & Hr & Hraw). vm_compute in Hr. injection Hr as <-. discriminate.
Qed.

(** C5, amended.  When the destination response that ends with status 201
    is the first event to settle the attempt, the attempt resolves with
    status code 201, with the [id] of the parsed body when that is a truthy
    property of a parsed object and null otherwise - null in particular when
    the body does not parse - and with the raw body when it is not empty;
    for an empty body the raw body is left out. *)
Theorem success_result `{JsBuiltins} (pre post : list relay_event) (body : string) :
  settled (relay_run relay_init pre) = PPending →
  putRes (relay_run relay_init pre) = Some (201, body) →
  ∃ r, attemptStreamUpload (pre ++ DestEnd :: post) = PResolved r ∧
       r_statusCode r = 201 ∧
       (JSON_parse body = None → videoId r = JNull) ∧
       (∀ v, JSON_parse body = Some v →
             videoId r = match get_id v with
                         | Some (Some i) => if truthy i then i else JNull
                         | _ => JNull
                         end) ∧
       (body ≠ EmptyString → rawResponse r = Some body) ∧
       (body = EmptyString → rawResponse r = None).
Proof.
  intros Hpend Hput.
  eexists. split_and!.
  - apply attempt_decided; [done| |done].
    simpl. rewrite Hput. simpl. rewrite Hpend. simpl. unfold on_end. simpl. reflexivity.
  - done.
  - simpl. unfold parse_videoId. by intros ->.
  - simpl. unfold parse_videoId. intros v ->.
    destruct (get_id v) as [[i|]|]; done.
  - simpl. intros Hne. destruct (0 <? Z.of_nat (String.length body)) eqn:Hl; [done|].
    by apply length_zero_empty in Hl.
  - simpl. intros ->. done.
Qed.

Lemma success_result_witness :
  ∃ r, @attemptStreamUpload sample_builtins
         ([SourceResponse 200; DestResponse 201; DestData sample_body] ++ DestEnd :: []) =
         PResolved r ∧
       r_statusCode r = 201 ∧
       videoId r = JString "abc123" ∧
       rawResponse r = Some sample_body.
Proof.
  destruct (@success_result sample_builtins
              [SourceResponse 200; DestResponse 201; DestData sample_body] [] sample_body
              eq_refl eq_refl) as (r & Hr & Hs & _ & Hid & Hraw & _).
  exists r. split_and!; [exact Hr | exact Hs | | ].
  - exact (Hid (JObject [("id"%string, JString "abc123")]) eq_refl).
  - apply Hraw. discriminate.
Defined.

(* ===================================================================== *)
(** ** The clean-up of the job store                                      *)
(* ===================================================================== *)

Section SortFacts.
Context {A : Type} (cmp : A → A → Z) (key : A → Z).
Hypothesis cmp_key : ∀ a b, cmp a b = key a - key b.

Lemma sort_insert_perm x l : sort_insert cmp x l ≡ₚ x :: l.
Proof.
  induction l as [|y l IH]; simpl; [done|].
  destruct (cmp x y <=? 0); [done|].
  rewrite IH. apply Permutation_swap.
Qed.

Lemma Array_sort_perm l : Array_sort cmp l ≡ₚ l.
Proof.
  induction l as [|x l IH]; simpl; [done|].
  rewrite sort_insert_perm. by rewrite IH.
Qed.

Lemma sort_insert_sorted x l :
  StronglySorted (λ a b, key a ≤ key b) l → StronglySorted (λ a b, key a ≤ key b) (sort_insert cmp x l).
Proof.
  induction 1 as [|y l Hl IH Hy]; simpl.
  { repeat constructor. }
  destruct (Z.leb_spec (cmp x y) 0) as [Hle|Hgt]; rewrite cmp_key in *.
  - constructor; [by constructor|].
    constructor; [lia|].
    eapply Forall_impl; [exact Hy|]. simpl. intros z Hz. lia.
  - constructor; [done|].
    rewrite sort_insert_perm. constructor; [lia|done].
Qed.

Lemma Array_sort_sorted l : StronglySorted (λ a b, key a ≤ key b) (Array_sort cmp l).
Proof.
  induction l as [|x l IH]; simpl; [constructor|].
  by apply sort_insert_sorted.
Qed.

End SortFacts.

Section StoreFacts.

Lemma filter_all {A} (P : A → Prop) `{∀ x, Decision (P x)} (l : list A) :
  (∀ x, x ∈ l → P x) → filter P l = l.
Proof.
  induction l as [|x l IH]; intros Hall; [done|].
  rewrite filter_cons_True by (apply Hall; left).
  f_equal. apply IH. intros y Hy. apply Hall. by right.
Qed.

Lemma filter_none {A} (P : A → Prop) `{∀ x, Decision (P x)} (l : list A) :
  (∀ x, x ∈ l → ¬ P x) → filter P l = [].
Proof.
  induction l as [|x l IH]; intros Hall; [done|].
  rewrite filter_cons_False by (apply Hall; left).
  apply IH. intros y Hy. apply Hall. by right.
Qed.

(** Deleting the keys of [dels] one after the other leaves the entries
    under the other keys, in their order. *)
Lemma delete_all (dels : list (string * job)) (jobs : store) :
  fold_left (λ m e, Map_delete e.1 m) dels jobs = filter (λ e, e.1 ∉ dels.*1) jobs.
Proof.
  revert jobs. induction dels as [|d dels IH]; intros jobs; simpl.
  - symmetry. apply filter_all. intros x _. apply not_elem_of_nil.
  - rewrite IH. unfold Map_delete.
    rewrite (list_filter_filter (λ e : string * job, e.1 ∉ dels.*1) (λ e, e.1 ≠ d.1)).
    apply list_filter_iff. intros e. rewrite not_elem_of_cons. tauto.
Qed.

(** With unique keys, what the clean-up keeps is the tail of the sorted
    entries. *)
Lemma cleanup_kept (jobs : store) :
  NoDup jobs.*1 →
  (100 < length jobs)%nat →
  cleanup jobs ≡ₚ drop (length jobs - 100) (Array_sort by_createdAt jobs).
Proof.
  intros Hnd Hlen. unfold cleanup.
  destruct (Z.ltb_spec 100 (Z.of_nat (length jobs))); [|lia].
  pose proof (Array_sort_perm by_createdAt jobs) as Hperm.
  set (sorted := Array_sort by_createdAt jobs) in *.
  assert (length sorted = length jobs) as -> by by rewrite Hperm.
  set (k := (length jobs - 100)%nat).
  set (dels := take k sorted).
  rewrite delete_all.
  assert (NoDup sorted.*1) as Hnd' by by rewrite Hperm.
  rewrite <- (take_drop k sorted) in Hnd'. fold dels in Hnd'.
  rewrite fmap_app in Hnd'. apply NoDup_app in Hnd' as (_ & Hdisj & _).
  transitivity (filter (λ e : string * job, e.1 ∉ dels.*1) sorted).
  { f_equiv. by symmetry. }
  rewrite <- (take_drop k sorted) at 1. fold dels.
  rewrite filter_app, filter_none, filter_all; [done| |].
  - intros e He Hin. apply (Hdisj e.1); [done|]. by apply list_elem_of_fmap_2.
  - intros e He Hnot. apply Hnot. by apply list_elem_of_fmap_2.
Qed.

End StoreFacts.

(** The store keeps its keys unique, which is what [eviction_oldest_first]
    asks of it. *)
Lemma Map_set_keys k v (m : store) :
  (Map_set k v m).*1 = if decide (k ∈ m.*1) then m.*1 else m.*1 ++ [k].
Proof.
  induction m as [|[k' v'] m IH]; csimpl; [done|].
  destruct (String.eqb_spec k k') as [->|Hne]; csimpl.
  - rewrite decide_True by left. done.
  - rewrite IH. destruct (decide (k ∈ m.*1)).
    + rewrite decide_True by by right. done.
    + rewrite decide_False; [done|]. rewrite elem_of_cons. tauto.
Qed.

Lemma post_upload_NoDup jobs req env : NoDup jobs.*1 → NoDup (post_upload jobs req env).*1.
Proof.
  intros Hnd. unfold post_upload. destruct (accepted req); [|done].
  rewrite Map_set_keys. case_decide; [done|].
  apply NoDup_app. split_and!; [done| |apply NoDup_singleton].
  intros x Hx Hx'. apply list_elem_of_singleton in Hx'. by subst.
Qed.

Lemma cleanup_NoDup jobs : NoDup jobs.*1 → NoDup (cleanup jobs).*1.
Proof.
  intros Hnd. unfold cleanup. destruct (100 <? Z.of_nat (length jobs)); [|done].
  rewrite delete_all. eapply sublist_NoDup; [done|].
  apply fmap_sublist, sublist_filter.
Qed.

(** C6.  When the store holds more than 100 jobs, the clean-up leaves
    exactly 100 of them, in their order, and every job it removes was created
    no later than every job it keeps. *)
Theorem eviction_oldest_first (jobs : store) :
  NoDup jobs.*1 →
  (100 < length jobs)%nat →
  length (cleanup jobs) = 100%nat ∧
  cleanup jobs `sublist_of` jobs ∧
  (∀ evicted retained,
      evicted ∈ jobs → evicted ∉ cleanup jobs → retained ∈ cleanup jobs →
      job_createdAt evicted.2 ≤ job_createdAt retained.2).
Proof.
  intros Hnd Hlen.
  pose proof (cleanup_kept jobs Hnd Hlen) as Hkept.
  pose proof (Array_sort_perm by_createdAt jobs) as Hperm.
  split_and!.
  - rewrite Hkept, length_drop, Hperm. lia.
  - unfold cleanup. destruct (100 <? Z.of_nat (length jobs)); [|done].
    rewrite delete_all. apply sublist_filter.
  - intros e r He Hne Hr.
    rewrite Hkept in Hne, Hr. rewrite <- Hperm in He.
    pose proof (Array_sort_sorted by_createdAt (λ e, job_createdAt e.2)
                  (λ _ _, eq_refl) jobs) as Hsorted.
    rewrite <- (take_drop (length jobs - 100) (Array_sort by_createdAt jobs)) in He, Hsorted.
    apply elem_of_app in He as [He|He]; [|done].
    exact (StronglySorted_app_1_elem_of _ _ _ _ _ Hsorted He Hr).
Qed.

Lemma eviction_oldest_first_witness :
  NoDup sample_store.*1 ∧
  (100 < length sample_store)%nat ∧
  length (cleanup sample_store) = 100%nat.
Proof.
  assert (NoDup sample_store.*1) as Hnd
    by (apply (bool_decide_unpack _); vm_compute; exact I).
  assert (100 < length sample_store)%nat as Hlen by (vm_compute; lia).
  split; [exact Hnd|]. split; [exact Hlen|].
  apply (eviction_oldest_first sample_store Hnd Hlen).
Defined.

(* ===================================================================== *)
(** ** Job identifiers                                                    *)
(* ===================================================================== *)

Section IdFacts.

Lemma uint_free_of_underscore (d : uint) : free_of "_" (NilEmpty.string_of_uint d).
Proof. induction d; simpl; auto. Qed.

Lemma dec_free_of_underscore (z : Z) : free_of "_" (dec z).
Proof.
  unfold dec. destruct (Z.to_int z) as [d|d]; simpl.
  - destruct d; simpl; auto using uint_free_of_underscore.
  - split; [done|]. destruct d; simpl; auto using uint_free_of_underscore.
Qed.

Lemma to_int_not_nil (z : Z) : Z.to_int z ≠ Pos Nil ∧ Z.to_int z ≠ Neg Nil.
Proof.
  destruct z as [|p|p]; simpl; split; try done;
    intros [= Hp]; by apply DecimalPos.Unsigned.to_uint_nonnil in Hp.
Qed.

Lemma dec_inj (a b : Z) : dec a = dec b → a = b.
Proof.
  unfold dec. intros Heq.
  apply (f_equal NilZero.int_of_string) in Heq.
  destruct (to_int_not_nil a), (to_int_not_nil b).
  rewrite !NilZero.isi in Heq by done.
  injection Heq as Heq. by apply DecimalZ.to_int_inj.
Qed.

(** Two strings free of underscores, each followed by an underscore and a
    rest, agree as wholes only if they agree part by part. *)
Lemma split_at_underscore (a b x y : string) :
  free_of "_" a → free_of "_" b →
  a +:+ String "_" x = b +:+ String "_" y →
  a = b ∧ x = y.
Proof.
  revert b. induction a as [|c a IH]; intros [|c' b]; simpl.
  - intros _ _ [= ->]. done.
  - intros _ [Hc _] [= <- _]. done.
  - intros [Hc _] _ [= -> _]. done.
  - intros [_ Ha] [_ Hb] [= -> Heq]. destruct (IH b Ha Hb Heq) as [-> ->]. done.
Qed.

Lemma jobId_inj now1 rnd1 now2 rnd2 :
  jobId now1 rnd1 = jobId now2 rnd2 ↔ now1 = now2 ∧ slice 2 9 rnd1 = slice 2 9 rnd2.
Proof.
  split; [|by intros [-> Hs]; unfold jobId; rewrite Hs].
  unfold jobId. simpl. intros [= Heq].
  apply split_at_underscore in Heq as [Hd Hs]; auto using dec_free_of_underscore.
  split; [by apply dec_inj|done].
Qed.

(** No assignment to a job touches its [id]. *)
Lemma history_id (ws : list job_write) (j0 j : job) :
  j ∈ history j0 ws → job_id j = job_id j0.
Proof.
  revert j0. induction ws as [|w ws IH]; intros j0; simpl.
  - intros Hj. apply list_elem_of_singleton in Hj. by subst.
  - intros Hj. apply elem_of_cons in Hj as [->|Hj]; [done|].
    rewrite (IH _ Hj). by destruct w.
Qed.

End IdFacts.

(** C8, as stated, fails: two requests accepted in the same millisecond
    whose random draws share their first seven base-36 digits get the same
    id, and the second job takes the place of the first in the store. *)
Lemma job_id_counterexample :
  accepted first_request = true ∧
  accepted second_request = true ∧
  random36 first_env ≠ random36 second_env ∧
  new_job first_request first_env ≠ new_job second_request second_env ∧
  job_id (new_job first_request first_env) = job_id (new_job second_request second_env) ∧
  post_upload (post_upload [] first_request first_env) second_request second_env =
    [("job_1700000000000_4fzyo82"%string, new_job second_request second_env)].
Proof.
  split_and!; [reflexivity | reflexivity | discriminate | discriminate
              | reflexivity | reflexivity].
Qed.

(** C8, amended.  Two ids are equal exactly when they were made in the same
    millisecond from random draws with the same seven digits after the
    point; so jobs that differ in either get distinct ids.  A job's id is
    the same in every state the job goes through. *)
Theorem job_id_scheme `{JsBuiltins} :
  (∀ now1 rnd1 now2 rnd2,
      jobId now1 rnd1 = jobId now2 rnd2 ↔
      now1 = now2 ∧ slice 2 9 rnd1 = slice 2 9 rnd2) ∧
  (∀ req1 env1 req2 env2,
      date_now env1 ≠ date_now env2 ∨
      slice 2 9 (random36 env1) ≠ slice 2 9 (random36 env2) →
      job_id (new_job req1 env1) ≠ job_id (new_job req2 env2)) ∧
  (∀ req env j,
      j ∈ history (new_job req env) (writes (job_run req env).1) →
      job_id j = jobId (date_now env) (random36 env)).
Proof.
  split_and!.
  - apply jobId_inj.
  - intros req1 env1 req2 env2 Hdiff Heq. simpl in Heq.
    apply jobId_inj in Heq. tauto.
  - intros req env j Hj. by rewrite (history_id _ _ _ Hj).
Qed.

Lemma job_id_scheme_witness :
  job_id (new_job first_request first_env) ≠
  job_id (new_job second_request
            {| date_now := 1700000000001; random36 := "0.4fzyo82k1pq";
               created_time := 1700000000001; completed_time := 1700000004800;
               head_events := []; relay_events := fun _ => [] |}).
Proof.
  apply (proj1 (proj2 (@job_id_scheme sample_builtins))).
  left. simpl. lia.
Defined.

(* ===================================================================== *)
(** ** The sample runs, evaluated                                         *)
(* ===================================================================== *)

(** Two 503 answers and a 201: three attempts, delays of 2000 and 4000 ms,
    and only the outcome of the last attempt is recorded. *)
Example third_time_run :
  @job_run sample_builtins (sample_request (Some (JsNum 1000))) env_third_time =
    ([EWrite (SetStatus Downloading);
      EWrite (SetStatus Uploading);
      EAttempt 1; ESleep 2000; EAttempt 2; ESleep 4000; EAttempt 3;
      EWrite (SetStatus Completed);
      EWrite (SetCompletedAt 1700000004500);
      EWrite (SetResult {| r_statusCode := 201; videoId := JString "abc123";
                           rawResponse := Some sample_body |})],
     Done tt).
Proof. reflexivity. Qed.

(** A 503 from the source is not retried although a 503 from the
    destination is. *)
Example source_down_run :
  attempts_of (@job_run sample_builtins (sample_request (Some (JsNum 1000)))
                 env_source_down).1 = [1] ∧
  attempts_of (@job_run sample_builtins (sample_request (Some (JsNum 1000)))
                 env_unavailable).1 = [1; 2; 3].
Proof. split; reflexivity. Qed.

(** The length is taken from the HEAD response when the request has none. *)
Example resolved_by_probe :
  @job_run sample_builtins (sample_request None)
    (sample_env [HeadResponse (Some "1000"%string)] (fun _ => exchange 201 [])) =
    ([EWrite (SetStatus Downloading);
      EHead;
      EWrite (SetStatus Uploading);
      EAttempt 1;
      EWrite (SetStatus Completed);
      EWrite (SetCompletedAt 1700000004500);
      EWrite (SetResult {| r_statusCode := 201; videoId := JNull; rawResponse := None |})],
     Done tt).
Proof. reflexivity. Qed.

(** A destination that never answers leaves the job in [uploading]. *)
Example silent_destination :
  @job_run sample_builtins (sample_request (Some (JsNum 1000)))
    (sample_env [] (fun _ => [SourceResponse 200])) =
    ([EWrite (SetStatus Downloading); EWrite (SetStatus Uploading); EAttempt 1], Hangs).
Proof. reflexivity. Qed.

(** The clean-up of the sample store drops its oldest job and keeps the
    second oldest. *)
Example cleanup_sample_store :
  Map_get "job_1700000000000_4fzyo82" sample_store ≠ None ∧
  Map_get "job_1700000000000_4fzyo82" (cleanup sample_store) = None ∧
  Map_get "job_1700000000001_4fzyo82" (cleanup sample_store) ≠ None.
Proof. vm_compute. split_and!; [discriminate | reflexivity | discriminate]. Qed.

(** Jobs created in the same millisecond are told apart by insertion order:
    the sort is stable. *)
Example sort_is_stable :
  Array_sort (fun a b : Z * Z => a.1 - b.1) [(3, 0); (1, 1); (3, 2); (1, 3); (2, 4)] =
    [(1, 1); (1, 3); (2, 4); (3, 0); (3, 2)].
Proof. reflexivity. Qed.

(* ===================================================================== *)
(** * Further properties of the relay                                    *)
(* ===================================================================== *)

Section RelayMore.
Context `{JsBuiltins}.

Lemma string_app_cons (x : ascii) (a b : string) : String x a +:+ b = String x (a +:+ b).
Proof. reflexivity. Qed.

Lemma string_app_assoc (a b c : string) : (a +:+ b) +:+ c = a +:+ (b +:+ c).
Proof.
  induction a as [|x a IH]; [done|]. rewrite !string_app_cons. by rewrite IH.
Qed.

Lemma string_app_empty (a : string) : a +:+ EmptyString = a.
Proof.
  induction a as [|x a IH]; [done|]. rewrite string_app_cons. by rewrite IH.
Qed.

(** The ['data'] handler appends; nothing else changes while the chunks
    arrive. *)
Lemma relay_run_chunks chunks st status body0 :
  putRes st = Some (status, body0) →
  relay_run st (DestData <$> chunks) =
    {| settled := settled st; putReq := putReq st;
       putRes := Some (status, body0 +:+ join chunks) |}.
Proof.
  revert st body0. induction chunks as [|c chunks IH]; intros st body0 Hput; simpl.
  - rewrite string_app_empty. destruct st; simpl in *; by subst.
  - rewrite Hput. erewrite IH by done. simpl. by rewrite string_app_assoc.
Qed.

(** Every answer of the ['end'] handler settles the promise. *)
Lemma on_end_settles status body : on_end status body ≠ PPending.
Proof. unfold on_end. repeat case_match; done. Qed.

End RelayMore.

(** X1.  Once an attempt is settled, nothing that happens later changes its
    outcome; the same holds for the HEAD request. *)
Theorem first_settlement_is_final `{JsBuiltins}
    (evs more : list relay_event) (hevs hmore : list head_event) :
  (attemptStreamUpload evs ≠ PPending →
   attemptStreamUpload (evs ++ more) = attemptStreamUpload evs) ∧
  (getContentLength hevs ≠ PPending →
   getContentLength (hevs ++ hmore) = getContentLength hevs).
Proof.
  split.
  - unfold attemptStreamUpload. intros Hs. rewrite relay_run_app.
    by apply relay_run_settled.
  - unfold getContentLength. intros Hs. rewrite fold_left_app.
    by apply head_run_settled.
Qed.

Lemma first_settlement_is_final_witness :
  @attemptStreamUpload sample_builtins
    (exchange 201 [sample_body] ++ [PipelineError sample_503; DestEnd]) =
  @attemptStreamUpload sample_builtins (exchange 201 [sample_body]).
Proof.
  apply (proj1 (@first_settlement_is_final sample_builtins
                  (exchange 201 [sample_body]) [PipelineError sample_503; DestEnd] [] [])).
  discriminate.
Defined.

(** X2.  The body handed to the ['end'] handler is the chunks of the
    response in the order they arrived: after the destination has answered
    with [status], its chunks and its end decide the attempt as
    [status] and the joined chunks do. *)
Theorem body_is_chunks_in_order `{JsBuiltins}
    (pre post : list relay_event) (status : Z) (chunks : list string) :
  settled (relay_run relay_init pre) = PPending →
  putReq (relay_run relay_init pre) = true →
  attemptStreamUpload (pre ++ DestResponse status :: (DestData <$> chunks) ++ DestEnd :: post)
    = on_end status (join chunks).
Proof.
  intros Hpend Hput. unfold attemptStreamUpload.
  rewrite relay_run_app. simpl. rewrite Hput.
  rewrite relay_run_app.
  erewrite relay_run_chunks by done. simpl.
  rewrite relay_run_settled; simpl; rewrite Hpend; simpl; [done|].
  apply on_end_settles.
Qed.

Lemma body_is_chunks_in_order_witness :
  @attemptStreamUpload sample_builtins
    ([SourceResponse 200] ++ DestResponse 400 :: (DestData <$> ["bad "; "token"]%string)
       ++ DestEnd :: []) =
  PRejected {| message := "YouTube upload failed: HTTP 400 - bad token";
               code := None; statusCode := Some 400; body := Some "bad token"%string |}.
Proof.
  apply (@body_is_chunks_in_order sample_builtins [SourceResponse 200] [] 400
           ["bad "; "token"]%string); reflexivity.
Defined.

(* ===================================================================== *)
(** * Further properties of the retry loop                               *)
(* ===================================================================== *)

Section RetryMore.
Context `{JsBuiltins}.
Variables (req : request) (env : environment).

(** A retryable failure of attempt 1 or 2 is followed by the delay and the
    next attempt, with nothing in between. *)
Lemma job_retry_step n e :
  n ∈ attempts_of (job_run req env).1 →
  n < maxRetries →
  attemptStreamUpload (relay_events env n) = PRejected e →
  isRetryable e = true →
  ∃ l1 l2, (job_run req env).1 =
             l1 ++ EAttempt n :: ESleep (backoff_delay n) :: EAttempt (n + 1) :: l2.
Proof.
  unfold maxRetries.
  job_cases req env; intros Hn Hlt He Hre; in_list; subst; try lia; try congruence;
    first [ eexists [_; _], _; reflexivity
          | eexists [_; _; _], _; reflexivity
          | eexists [_; _; _; _], _; reflexivity
          | eexists [_; _; _; _; _], _; reflexivity ].
Qed.

Lemma job_retried_retryable n e :
  n ∈ attempts_of (job_run req env).1 →
  n + 1 ∈ attempts_of (job_run req env).1 →
  attemptStreamUpload (relay_events env n) = PRejected e →
  isRetryable e = true.
Proof.
  intros Hn Hn' He.
  destruct (job_attempts req env) as [Hj|Hj]; rewrite Hj in *.
  { by apply elem_of_nil in Hn. }
  destruct (stream_retried_retryable (relay_events env) n Hn Hn') as (e' & He' & Hre).
  congruence.
Qed.

(** The third attempt is the last, and its failure is the job's. *)
Lemma job_third_attempt e :
  3 ∈ attempts_of (job_run req env).1 →
  attemptStreamUpload (relay_events env 3) = PRejected e →
  last (attempts_of (job_run req env).1) = Some 3 ∧
  ∃ j, last (history (new_job req env) (writes (job_run req env).1)) = Some j ∧
       job_status_of j = Failed ∧
       job_error_of j = Some {| je_message := message e; je_code := code e |}.
Proof.
  intros H3 He.
  assert (last (attempts_of (job_run req env).1) = Some 3) as Hlast.
  { revert H3. clear He. job_cases req env; intros H3; in_list; done. }
  split; [done|].
  destruct (job_last_attempt_error req env 3 e Hlast He) as (j & ? & ? & ? & ?). eauto.
Qed.

(** What follows a rejection with a retryable error, by the number of the
    attempt. *)
Lemma job_after_retryable n e :
  attemptStreamUpload (relay_events env n) = PRejected e →
  isRetryable e = true →
  n ∈ attempts_of (job_run req env).1 →
  (n < 3 →
   ∃ l1 l2, (job_run req env).1 =
              l1 ++ EAttempt n :: ESleep (Z.min (1000 * 2 ^ n) 10000)
                 :: EAttempt (n + 1) :: l2) ∧
  (n = 3 →
   last (attempts_of (job_run req env).1) = Some 3 ∧
   ∃ j, last (history (new_job req env) (writes (job_run req env).1)) = Some j ∧
        job_status_of j = Failed ∧
        job_error_of j = Some {| je_message := message e; je_code := code e |}).
Proof.
  intros He Hre Hn. split.
  - intros Hlt. by apply (job_retry_step n e).
  - intros ->. by apply job_third_attempt.
Qed.

End RetryMore.

(** X3.  When the destination response that settles attempt [n] ends with
    status 308, the attempt is rejected with the error "Upload incomplete
    (308), will retry", whose [statusCode] is 308 and which is retryable.  If
    [n] is 1 or 2 the job waits [min (1000 * 2 ^ n) 10000] ms and starts
    attempt [n + 1]; if [n] is 3 the job ends failed with that message. *)
Theorem resume_incomplete_retried `{JsBuiltins} (req : request) (env : environment)
    (n : Z) (pre post : list relay_event) (bd : string) :
  relay_events env n = pre ++ DestEnd :: post →
  settled (relay_run relay_init pre) = PPending →
  putRes (relay_run relay_init pre) = Some (308, bd) →
  let e := {| message := "Upload incomplete (308), will retry";
              code := None; statusCode := Some 308; body := None |} in
  attemptStreamUpload (relay_events env n) = PRejected e ∧
  isRetryable e = true ∧
  (n ∈ attempts_of (job_run req env).1 →
   (n < 3 →
    ∃ l1 l2, (job_run req env).1 =
               l1 ++ EAttempt n :: ESleep (Z.min (1000 * 2 ^ n) 10000)
                  :: EAttempt (n + 1) :: l2) ∧
   (n = 3 →
    last (attempts_of (job_run req env).1) = Some 3 ∧
    ∃ j, last (history (new_job req env) (writes (job_run req env).1)) = Some j ∧
         job_status_of j = Failed ∧
         job_error_of j = Some {| je_message := "Upload incomplete (308), will retry";
                                  je_code := None |})).
Proof.
  intros Hev Hpend Hput e.
  assert (attemptStreamUpload (relay_events env n) = PRejected e) as He.
  { rewrite Hev. apply attempt_decided; [done| |done].
    simpl. rewrite Hput. simpl. by rewrite Hpend. }
  split_and!; [done|done|].
  intros Hn. by apply (job_after_retryable req env n e).
Qed.

Lemma resume_incomplete_retried_witness :
  let env := sample_env [] (fun n => if n =? 1 then exchange 308 [] else exchange 201 []) in
  let req := sample_request (Some (JsNum 1000)) in
  1 ∈ attempts_of (@job_run sample_builtins req env).1 ∧
  ∃ l1 l2, (@job_run sample_builtins req env).1 =
             l1 ++ EAttempt 1 :: ESleep (Z.min (1000 * 2 ^ 1) 10000) :: EAttempt (1 + 1) :: l2.
Proof.
  intros env req.
  assert (1 ∈ attempts_of (@job_run sample_builtins req env).1) as Hn by (simpl; left).
  split; [exact Hn|].
  refine (proj1 (proj2 (proj2 (@resume_incomplete_retried sample_builtins req env 1
            [SourceResponse 200; DestResponse 308] [] EmptyString
            eq_refl eq_refl eq_refl)) Hn) _).
  lia.
Defined.

(** X4.  When the destination response that settles attempt [n] ends with a
    status of 500 or more, the attempt is rejected with an error that carries
    the status and the response body and is retryable.  If [n] is 1 or 2 the
    job waits and starts attempt [n + 1]; if [n] is 3 the job ends failed
    with a message that holds the status and the body. *)
Theorem server_error_retried `{JsBuiltins} (req : request) (env : environment)
    (n : Z) (pre post : list relay_event) (status : Z) (bd : string) :
  relay_events env n = pre ++ DestEnd :: post →
  settled (relay_run relay_init pre) = PPending →
  putRes (relay_run relay_init pre) = Some (status, bd) →
  500 ≤ status →
  let e := {| message := "YouTube upload failed: HTTP " +:+ dec status +:+ " - " +:+ bd;
              code := None; statusCode := Some status; body := Some bd |} in
  attemptStreamUpload (relay_events env n) = PRejected e ∧
  isRetryable e = true ∧
  (n ∈ attempts_of (job_run req env).1 →
   (n < 3 →
    ∃ l1 l2, (job_run req env).1 =
               l1 ++ EAttempt n :: ESleep (Z.min (1000 * 2 ^ n) 10000)
                  :: EAttempt (n + 1) :: l2) ∧
   (n = 3 →
    last (attempts_of (job_run req env).1) = Some 3 ∧
    ∃ j, last (history (new_job req env) (writes (job_run req env).1)) = Some j ∧
         job_status_of j = Failed ∧
         job_error_of j =
           Some {| je_message := "YouTube upload failed: HTTP " +:+ dec status +:+ " - " +:+ bd;
                   je_code := None |})).
Proof.
  intros Hev Hpend Hput Hstatus e.
  assert (attemptStreamUpload (relay_events env n) = PRejected e) as He.
  { rewrite Hev. apply attempt_decided; [done| |done].
    simpl. rewrite Hput. simpl. rewrite Hpend. simpl.
    apply on_end_other; lia. }
  assert (isRetryable e = true) as Hre.
  { unfold isRetryable. simpl. destruct (Z.leb_spec 500 status); [done|lia]. }
  split_and!; [done|done|].
  intros Hn. by apply (job_after_retryable req env n e).
Qed.

Lemma server_error_retried_witness :
  let req := sample_request (Some (JsNum 1000)) in
  3 ∈ attempts_of (@job_run sample_builtins req env_unavailable).1 ∧
  last (attempts_of (@job_run sample_builtins req env_unavailable).1) = Some 3 ∧
  ∃ j, last (history (new_job req env_unavailable)
               (writes (@job_run sample_builtins req env_unavailable).1)) = Some j ∧
       job_status_of j = Failed ∧
       job_error_of j =
         Some {| je_message := "YouTube upload failed: HTTP " +:+ dec 503 +:+ " - " +:+ EmptyString;
                 je_code := None |}.
Proof.
  intros req.
  assert (3 ∈ attempts_of (@job_run sample_builtins req env_unavailable).1) as Hn
    by (simpl; do 2 right; left).
  split; [exact Hn|].
  refine (proj2 (proj2 (proj2 (@server_error_retried sample_builtins req env_unavailable 3
            [SourceResponse 200; DestResponse 503] [] 503 EmptyString
            eq_refl eq_refl eq_refl _)) Hn) eq_refl).
  lia.
Defined.

(** X5.  When the destination response that settles attempt [n] ends with a
    status below 500 other than 201 and 308 - 401 or 403, say - the attempt
    is rejected with an error that carries the status and the response body
    and is not retryable: attempt [n + 1] is never made and the job ends
    failed with a message that holds the status and the body. *)
Theorem destination_rejection_final `{JsBuiltins} (req : request) (env : environment)
    (n : Z) (pre post : list relay_event) (status : Z) (bd : string) :
  relay_events env n = pre ++ DestEnd :: post →
  settled (relay_run relay_init pre) = PPending →
  putRes (relay_run relay_init pre) = Some (status, bd) →
  status < 500 → status ≠ 201 → status ≠ 308 →
  let e := {| message := "YouTube upload failed: HTTP " +:+ dec status +:+ " - " +:+ bd;
              code := None; statusCode := Some status; body := Some bd |} in
  attemptStreamUpload (relay_events env n) = PRejected e ∧
  isRetryable e = false ∧
  (n ∈ attempts_of (job_run req env).1 →
   (n + 1 ∉ attempts_of (job_run req env).1) ∧
   sleeps_of (job_run req env).1 = backoff_delay <$> seqZ 1 (n - 1) ∧
   ∃ j, last (history (new_job req env) (writes (job_run req env).1)) = Some j ∧
        job_status_of j = Failed ∧
        job_result j = None ∧
        job_error_of j =
          Some {| je_message := "YouTube upload failed: HTTP " +:+ dec status +:+ " - " +:+ bd;
                  je_code := None |}).
Proof.
  intros Hev Hpend Hput Hlt H201 H308 e.
  assert (attemptStreamUpload (relay_events env n) = PRejected e) as He.
  { rewrite Hev. apply attempt_decided; [done| |done].
    simpl. rewrite Hput. simpl. rewrite Hpend. simpl.
    by apply on_end_other. }
  assert (isRetryable e = false) as Hnr.
  { unfold isRetryable. simpl.
    destruct (Z.leb_spec 500 status); [lia|].
    destruct (Z.eqb_spec status 308); done. }
  split_and!; [done|done|].
  intros Hn.
  destruct (job_nonretryable_stops req env n e Hn He Hnr) as [Hlast _].
  destruct (job_last_attempt_error req env n e Hlast He) as (j & Hj & Hs & Herr & Hres).
  split_and!.
  - intros Hn'. pose proof (job_retried_retryable req env n e Hn Hn' He). congruence.
  - revert Hn Hlast. clear. job_cases req env; intros Hn Hlast; in_list; simplify_eq; done.
  - exists j. done.
Qed.

Lemma destination_rejection_final_witness :
  let env := sample_env [] (fun _ => exchange 401 ["Unauthorized"%string]) in
  let req := sample_request (Some (JsNum 1000)) in
  1 ∈ attempts_of (@job_run sample_builtins req env).1 ∧
  (1 + 1 ∉ attempts_of (@job_run sample_builtins req env).1) ∧
  sleeps_of (@job_run sample_builtins req env).1 = backoff_delay <$> seqZ 1 (1 - 1) ∧
  ∃ j, last (history (new_job req env) (writes (@job_run sample_builtins req env).1)) = Some j ∧
       job_status_of j = Failed ∧
       job_result j = None ∧
       job_error_of j =
         Some {| je_message := "YouTube upload failed: HTTP " +:+ dec 401 +:+ " - " +:+
                                 "Unauthorized";
                 je_code := None |}.
Proof.
  intros env req.
  assert (1 ∈ attempts_of (@job_run sample_builtins req env).1) as Hn by (simpl; left).
  split; [exact Hn|].
  refine (proj2 (proj2 (@destination_rejection_final sample_builtins req env 1
            [SourceResponse 200; DestResponse 401; DestData "Unauthorized"] []
            401 "Unauthorized" eq_refl eq_refl eq_refl _ _ _)) Hn); lia.
Defined.

(** X6.  The 60 second timer of the download rejects an undecided attempt
    with the error "Download timeout", which has neither [statusCode] nor
    [code]: it is not retryable, so no further attempt is made and the job
    ends failed with that message. *)
Theorem download_timeout_final `{JsBuiltins} (req : request) (env : environment)
    (n : Z) (pre post : list relay_event) :
  relay_events env n = pre ++ SourceTimeout :: post →
  settled (relay_run relay_init pre) = PPending →
  attemptStreamUpload (relay_events env n) = PRejected (new_Error "Download timeout") ∧
  isRetryable (new_Error "Download timeout") = false ∧
  (n ∈ attempts_of (job_run req env).1 →
   (n + 1 ∉ attempts_of (job_run req env).1) ∧
   ∃ j, last (history (new_job req env) (writes (job_run req env).1)) = Some j ∧
        job_status_of j = Failed ∧
        job_error_of j = Some {| je_message := "Download timeout"; je_code := None |}).
Proof.
  intros Hev Hpend.
  assert (attemptStreamUpload (relay_events env n) =
            PRejected (new_Error "Download timeout")) as He.
  { rewrite Hev. apply attempt_decided; [done| |done]. simpl. by rewrite Hpend. }
  split_and!; [done|done|].
  intros Hn.
  destruct (job_nonretryable_stops req env n _ Hn He eq_refl) as [Hlast Hj].
  split; [|done].
  intros Hn'. pose proof (job_retried_retryable req env n _ Hn Hn' He). done.
Qed.

Lemma download_timeout_final_witness :
  let env := sample_env [] (fun _ => [SourceResponse 200; SourceTimeout]) in
  let req := sample_request (Some (JsNum 1000)) in
  1 ∈ attempts_of (@job_run sample_builtins req env).1 ∧
  (1 + 1 ∉ attempts_of (@job_run sample_builtins req env).1) ∧
  ∃ j, last (history (new_job req env) (writes (@job_run sample_builtins req env).1)) = Some j ∧
       job_status_of j = Failed ∧
       job_error_of j = Some {| je_message := "Download timeout"; je_code := None |}.
Proof.
  intros env req.
  assert (1 ∈ attempts_of (@job_run sample_builtins req env).1) as Hn by (simpl; left).
  split; [exact Hn|].
  exact (proj2 (proj2 (@download_timeout_final sample_builtins req env 1
                         [SourceResponse 200] [] eq_refl eq_refl)) Hn).
Defined.

(** X7.  An error event of the download, of the upload request or of the
    pipe between them rejects an undecided attempt with that very error, and
    so does an exception thrown by the promise executor itself, before the
    download is under way (parsing [videoUrl] or issuing the GET).  Attempt 1
    or 2 is then followed by another exactly when the error is retryable; an
    error whose [code] is ECONNRESET or ETIMEDOUT is, and one with another
    code and no [statusCode] - ECONNREFUSED or ENOTFOUND, say - is not.
    Exceptions raised later, inside the callback of the download response
    (parsing [uploadUrl], issuing the PUT), are not rejections of the promise
    and are not among the events. *)
Theorem transport_error_propagates `{JsBuiltins} (req : request) (env : environment)
    (n : Z) (pre post : list relay_event) (ev : relay_event) (e : js_error) :
  relay_events env n = pre ++ ev :: post →
  settled (relay_run relay_init pre) = PPending →
  ev = RelaySetupThrew e ∨ ev = SourceError e ∨
    (putReq (relay_run relay_init pre) = true ∧ (ev = DestError e ∨ ev = PipelineError e)) →
  attemptStreamUpload (relay_events env n) = PRejected e ∧
  (n ∈ attempts_of (job_run req env).1 → n < 3 →
   (n + 1 ∈ attempts_of (job_run req env).1 ↔ isRetryable e = true)) ∧
  (code e = Some "ECONNRESET"%string ∨ code e = Some "ETIMEDOUT"%string →
   isRetryable e = true) ∧
  (statusCode e = None →
   code e ≠ Some "ECONNRESET"%string → code e ≠ Some "ETIMEDOUT"%string →
   isRetryable e = false).
Proof.
  intros Hev Hpend Hkind.
  assert (attemptStreamUpload (relay_events env n) = PRejected e) as He.
  { rewrite Hev. apply attempt_decided; [done| |done].
    destruct Hkind as [->|[->|[Hput [->| ->]]]]; simpl; rewrite ?Hput; simpl;
      by rewrite Hpend. }
  split_and!; [done| | |].
  - intros Hn Hlt. split.
    + intros Hn'. by apply (job_retried_retryable req env n e).
    + intros Hre.
      destruct (job_retry_step req env n e Hn Hlt He Hre) as (l1 & l2 & ->).
      unfold attempts_of. rewrite omap_app. apply elem_of_app. right.
      simpl. right. left.
  - intros Hc. apply isRetryable_spec. tauto.
  - intros Hs Hc1 Hc2. destruct (isRetryable e) eqn:Hre; [|done].
    apply isRetryable_spec in Hre as [(s & Hs' & _)|[?|?]]; congruence.
Qed.

Lemma transport_error_propagates_witness :
  let reset := {| message := "socket hang up"; code := Some "ECONNRESET"%string;
                  statusCode := None; body := None |} in
  let env := sample_env [] (fun n => if n =? 1 then [SourceResponse 200; DestError reset]
                                     else exchange 201 []) in
  let req := sample_request (Some (JsNum 1000)) in
  @attemptStreamUpload sample_builtins (relay_events env 1) = PRejected reset ∧
  (1 + 1 ∈ attempts_of (@job_run sample_builtins req env).1 ↔ isRetryable reset = true).
Proof.
  intros reset env req.
  destruct (@transport_error_propagates sample_builtins req env 1
              [SourceResponse 200] [] (DestError reset) reset eq_refl eq_refl
              (or_intror (or_intror (conj eq_refl (or_introl eq_refl)))))
    as (He & Hretry & _ & _).
  split; [exact He|].
  apply Hretry; [simpl; left | lia].
Defined.

(* ===================================================================== *)
(** * Further properties of runUpload                                    *)
(* ===================================================================== *)

(** X8.  When the last attempt a job made resolved, [runUpload] ends and
    leaves the job completed, with that attempt's value as its result, no
    error, and the completion time set; earlier failed attempts leave no
    trace in the job.  Conversely a job is completed only if its last attempt
    resolved, and its result is that attempt's value. *)
Theorem completed_with_last_result `{JsBuiltins} (req : request) (env : environment) :
  let run := job_run req env in
  let attempt n := attemptStreamUpload (relay_events env n) in
  (∀ n r, last (attempts_of run.1) = Some n → attempt n = PResolved r →
          run.2 = Done tt ∧
          ∃ j, last (history (new_job req env) (writes run.1)) = Some j ∧
               job_status_of j = Completed ∧
               job_result j = Some r ∧
               job_error_of j = None ∧
               job_completedAt j = Some (completed_time env)) ∧
  (∀ j, last (history (new_job req env) (writes run.1)) = Some j →
        job_status_of j = Completed →
        ∃ n r, last (attempts_of run.1) = Some n ∧ attempt n = PResolved r ∧
               job_result j = Some r).
Proof.
  intros run attempt. subst run attempt. split.
  - job_cases req env; intros k r' Hk Hr'; simplify_eq; try congruence;
      (split; [done|]; eexists; split_and!; [reflexivity|reflexivity|simpl; congruence
                                            |reflexivity|reflexivity]).
  - job_cases req env; intros j Hj Hs; simplify_eq; try done; eauto.
Qed.

Lemma completed_with_last_result_witness :
  let req := sample_request (Some (JsNum 1000)) in
  let run := @job_run sample_builtins req env_third_time in
  last (attempts_of run.1) = Some 3 ∧
  run.2 = Done tt ∧
  ∃ j, last (history (new_job req env_third_time) (writes run.1)) = Some j ∧
       job_status_of j = Completed ∧
       job_result j = Some {| r_statusCode := 201; videoId := JString "abc123";
                              rawResponse := Some sample_body |} ∧
       job_error_of j = None ∧
       job_completedAt j = Some (completed_time env_third_time).
Proof.
  split; [reflexivity|].
  apply (proj1 (@completed_with_last_result sample_builtins
                  (sample_request (Some (JsNum 1000))) env_third_time) 3);
    reflexivity.
Defined.

(** X9.  The delays of a job are 2000 ms after a first failed attempt and
    4000 ms after a second, one delay less than there are attempts: the cap
    of 10000 ms is never reached and a job waits 6000 ms at most between its
    attempts. *)
Theorem backoff_schedule `{JsBuiltins} (req : request) (env : environment) :
  let log := (job_run req env).1 in
  sleeps_of log `prefix_of` [2000; 4000] ∧
  length (sleeps_of log) = (length (attempts_of log) - 1)%nat ∧
  foldr Z.add 0 (sleeps_of log) ≤ 6000 ∧
  (∀ d, d ∈ sleeps_of log → d < 10000).
Proof.
  intros log. subst log.
  job_cases req env;
    (split_and!;
     [ first [ by exists [2000; 4000] | by exists [4000] | by exists [] ]
     | reflexivity
     | lia
     | intros d Hd; in_list; lia ]).
Qed.

(** X10.  [runUpload] never rejects: whatever is thrown inside it is caught
    and recorded in the job, so the [.catch] handlers of both dispatch modes
    have nothing to do and the synchronous mode runs the same steps as the
    asynchronous one.  Its run ends exactly when the job is completed or
    failed; it stays unfinished, in status downloading or uploading, only
    while the HEAD request or the last attempt started is undecided. *)
Theorem runUpload_never_rejects `{JsBuiltins} (req : request) (env : environment) :
  let run := job_run req env in
  let j := final_job (new_job req env) run.1 in
  (∀ t, run.2 ≠ Throws t) ∧
  (∀ t, (runUpload req env).2 ≠ Throws t) ∧
  run = runUpload req env ∧
  (run.2 = Done tt ↔ job_status_of j = Completed ∨ job_status_of j = Failed) ∧
  (run.2 = Hangs ↔ job_status_of j = Downloading ∨ job_status_of j = Uploading) ∧
  (run.2 = Hangs →
   (contentLength req = None ∧ getContentLength (head_events env) = PPending ∧
    attempts_of run.1 = []) ∨
   (∃ n, last (attempts_of run.1) = Some n ∧
         attemptStreamUpload (relay_events env n) = PPending)).
Proof.
  intros run j. subst run j. split_and!.
  - apply job_run_no_throw.
  - intros t. rewrite <- job_run_sync_irrelevant. apply job_run_no_throw.
  - apply job_run_sync_irrelevant.
  - unfold final_job. job_cases req env; split; intros Hx; try done; auto;
      destruct Hx; done.
  - unfold final_job. job_cases req env; split; intros Hx; try done; auto;
      destruct Hx; done.
  - job_cases req env; intros Hx; try done; eauto.
Qed.

Lemma runUpload_never_rejects_witness :
  let env := sample_env [] (fun _ => [SourceResponse 200]) in
  let run := @job_run sample_builtins (sample_request (Some (JsNum 1000))) env in
  run.2 = Hangs ∧
  ((contentLength (sample_request (Some (JsNum 1000))) = None ∧
    @getContentLength sample_builtins (head_events env) = PPending ∧
    attempts_of run.1 = []) ∨
   (∃ n, last (attempts_of run.1) = Some n ∧
         @attemptStreamUpload sample_builtins (relay_events env n) = PPending)).
Proof.
  intros env run. split; [reflexivity|].
  apply (proj2 (proj2 (proj2 (proj2 (proj2
           (@runUpload_never_rejects sample_builtins
              (sample_request (Some (JsNum 1000))) env)))))).
  reflexivity.
Defined.

(** X11.  When the request has no [contentLength] and the HEAD request
    fails - by its 15 second timer, by an error event, or by an exception
    while it is set up - the job ends failed with that error's message and
    code after one HEAD request and without a transfer attempt.  That holds
    for errors that the transfer stage would retry, ECONNRESET among them. *)
Theorem probe_failure_final `{JsBuiltins} (req : request) (env : environment)
    (ev : head_event) (rest : list head_event) (e : js_error) :
  contentLength req = None →
  head_events env = ev :: rest →
  (ev = HeadTimeout ∧ e = new_Error "HEAD request timeout") ∨
    ev = HeadError e ∨ ev = HeadSetupThrew e →
  let log := (job_run req env).1 in
  getContentLength (head_events env) = PRejected e ∧
  probes_of log = [tt] ∧
  attempts_of log = [] ∧
  status_sequence (new_job req env) (writes log) = [Pending; Downloading; Failed] ∧
  ∃ j, last (history (new_job req env) (writes log)) = Some j ∧
       job_status_of j = Failed ∧
       job_result j = None ∧
       job_error_of j = Some {| je_message := message e; je_code := code e |}.
Proof.
  intros Hlen Hhead Hkind log. subst log.
  assert (getContentLength (head_events env) = PRejected e) as He.
  { rewrite Hhead. unfold getContentLength.
    destruct Hkind as [[-> ->]|[->| ->]]; simpl; by rewrite head_run_settled. }
  split; [done|].
  unfold job_run, sync_catch, runUpload. rewrite Hlen, He.
  destruct (sync req); simpl; (split_and!; [done|done|done|]);
    eexists; split_and!; reflexivity.
Qed.

Lemma probe_failure_final_witness :
  let reset := {| message := "read ECONNRESET"; code := Some "ECONNRESET"%string;
                  statusCode := None; body := None |} in
  let env := sample_env [HeadError reset] (fun _ => exchange 201 []) in
  let log := (@job_run sample_builtins (sample_request None) env).1 in
  isRetryable reset = true ∧
  probes_of log = [tt] ∧
  attempts_of log = [].
Proof.
  intros reset env log. split; [reflexivity|].
  destruct (@probe_failure_final sample_builtins (sample_request None) env
              (HeadError reset) [] reset eq_refl eq_refl (or_intror (or_introl eq_refl)))
    as (_ & Hp & Ha & _).
  split; [exact Hp | exact Ha].
Defined.

(** X12.  A request that carries a [contentLength] - any number, 0 and NaN
    included - makes no HEAD request: the job is set to downloading and then
    to uploading and the first attempt starts, with nothing awaited in
    between, and what the source would have answered to a HEAD request has no
    bearing on the run. *)
Theorem explicit_length_skips_probe `{JsBuiltins} (req : request) (env : environment)
    (len : js_number) (hevs : list head_event) :
  contentLength req = Some len →
  let log := (job_run req env).1 in
  probes_of log = [] ∧
  (∃ l, log = EWrite (SetStatus Downloading) :: EWrite (SetStatus Uploading)
              :: EAttempt 1 :: l) ∧
  job_run req {| date_now := date_now env; random36 := random36 env;
                 created_time := created_time env; completed_time := completed_time env;
                 head_events := hevs; relay_events := relay_events env |}
    = job_run req env.
Proof.
  intros Hlen log. subst log. split_and!.
  - revert Hlen. job_cases req env; done.
  - revert Hlen. job_cases req env; intros; simplify_eq; eauto.
  - unfold job_run, sync_catch, runUpload. simpl. by rewrite Hlen.
Qed.

Lemma explicit_length_skips_probe_witness :
  probes_of (@job_run sample_builtins (sample_request (Some JsNaN)) env_no_length).1 = [] ∧
  attempts_of (@job_run sample_builtins (sample_request (Some JsNaN)) env_no_length).1 = [1].
Proof.
  split; [|reflexivity].
  apply (proj1 (@explicit_length_skips_probe sample_builtins (sample_request (Some JsNaN))
                  env_no_length JsNaN [] eq_refl)).
Defined.

(** X13.  When the request has no [contentLength] and the source answers
    the HEAD request with a Content-Length header, the length is what
    [parseInt] makes of the header, and the job goes on to the transfer after
    that one HEAD request: it is set to uploading and attempt 1 starts. *)
Theorem probe_header_accepted `{JsBuiltins} (req : request) (env : environment)
    (header : string) (rest : list head_event) :
  contentLength req = None →
  head_events env = HeadResponse (Some header) :: rest →
  getContentLength (head_events env) = PResolved (parseInt10 header) ∧
  ∃ l, (job_run req env).1 =
         EWrite (SetStatus Downloading) :: EHead :: EWrite (SetStatus Uploading)
           :: EAttempt 1 :: l ∧
       probes_of l = [].
Proof.
  intros Hlen Hhead.
  assert (getContentLength (head_events env) = PResolved (parseInt10 header)) as He.
  { rewrite Hhead. unfold getContentLength. simpl. by rewrite head_run_settled. }
  split; [done|].
  revert Hlen He. job_cases req env; intros; simplify_eq; eauto.
Qed.

Lemma probe_header_accepted_witness :
  let env := sample_env [HeadResponse (Some "1000"%string)] (fun _ => exchange 201 []) in
  contentLength (sample_request None) = None ∧
  head_events env = [HeadResponse (Some "1000"%string)] ∧
  @getContentLength sample_builtins (head_events env) = PResolved (JsNum 1000) ∧
  ∃ l, (@job_run sample_builtins (sample_request None) env).1 =
         EWrite (SetStatus Downloading) :: EHead :: EWrite (SetStatus Uploading)
           :: EAttempt 1 :: l ∧
       probes_of l = [].
Proof.
  intros env. split; [reflexivity|]. split; [reflexivity|].
  exact (@probe_header_accepted sample_builtins (sample_request None) env
           "1000" [] eq_refl eq_refl).
Defined.

(** X14.  In every state of a job that a poll can read - while [runUpload]
    is suspended on the HEAD request, an attempt or a delay, and after it has
    ended - the status is not pending, the result is set exactly when the
    status is completed, the error exactly when it is failed, and the
    completion time exactly in those two states. *)
Theorem polls_see_consistent_jobs `{JsBuiltins} (req : request) (env : environment)
    (j : job) :
  j ∈ pollable (new_job req env) (job_run req env) →
  job_status_of j ≠ Pending ∧
  (job_status_of j = Completed ↔ job_result j ≠ None) ∧
  (job_status_of j = Failed ↔ job_error_of j ≠ None) ∧
  (job_status_of j = Completed ∨ job_status_of j = Failed ↔ job_completedAt j ≠ None) ∧
  (job_completedAt j = None ∨ job_completedAt j = Some (completed_time env)).
Proof.
  unfold pollable, final_job.
  job_cases req env; intros Hj; in_list; subst; simpl;
    (split_and!; [ congruence | intuition congruence | intuition congruence
                 | intuition congruence | auto ]).
Qed.

Lemma polls_see_consistent_jobs_witness :
  let req := sample_request (Some (JsNum 1000)) in
  sample_completed_job ∈ pollable (new_job req env_third_time)
                           (@job_run sample_builtins req env_third_time) ∧
  (job_status_of sample_completed_job = Completed ↔ job_result sample_completed_job ≠ None).
Proof.
  intros req.
  assert (sample_completed_job ∈ pollable (new_job req env_third_time)
            (@job_run sample_builtins req env_third_time)) as Hin.
  { simpl. do 5 right. left. }
  split; [exact Hin|].
  apply (@polls_see_consistent_jobs sample_builtins req env_third_time
           sample_completed_job Hin).
Defined.

(* ===================================================================== *)
(** * Further properties of the job store                                *)
(* ===================================================================== *)

Section StoreMore.

Lemma Map_get_filter (ks : list string) (m : store) (k : string) :
  Map_get k (filter (λ e : string * job, e.1 ∉ ks) m) =
    if decide (k ∉ ks) then Map_get k m else None.
Proof.
  induction m as [|[k' v] m IH].
  - by destruct (decide (k ∉ ks)).
  - rewrite (filter_cons (λ e : string * job, e.1 ∉ ks)). simpl.
    destruct (String.eqb_spec k k') as [->|Hne].
    + destruct (decide (k' ∉ ks)); simpl; [by rewrite String.eqb_refl|done].
    + destruct (decide (k' ∉ ks)); simpl; [|done].
      destruct (String.eqb_spec k k'); done.
Qed.

Lemma Map_get_Some (m : store) k j : Map_get k m = Some j → (k, j) ∈ m.
Proof.
  induction m as [|[k' v] m IH]; simpl; [done|].
  destruct (String.eqb_spec k k') as [->|Hne].
  - intros [= ->]. left.
  - intros Hg. right. by apply IH.
Qed.

Lemma Map_get_None (m : store) k : Map_get k m = None ↔ k ∉ m.*1.
Proof.
  induction m as [|[k' v] m IH]; csimpl.
  - split; [intros _; apply not_elem_of_nil|done].
  - destruct (String.eqb_spec k k') as [->|Hne].
    + split; [done|]. intros Hn. destruct Hn. left.
    + rewrite IH, not_elem_of_cons. tauto.
Qed.

Lemma Map_get_set (m : store) k v k' :
  Map_get k' (Map_set k v m) = if decide (k' = k) then Some v else Map_get k' m.
Proof.
  induction m as [|[k0 v0] m IH]; simpl.
  - destruct (String.eqb_spec k' k); by destruct (decide (k' = k)).
  - destruct (String.eqb_spec k k0) as [->|Hne]; simpl.
    + destruct (String.eqb_spec k' k0); by destruct (decide (k' = k0)).
    + destruct (String.eqb_spec k' k0) as [->|Hne'].
      * by rewrite decide_False by done.
      * apply IH.
Qed.

Lemma Map_set_length (m : store) k v :
  length (Map_set k v m) = if decide (k ∈ m.*1) then length m else S (length m).
Proof.
  rewrite <- (length_fmap fst (Map_set k v m)), Map_set_keys.
  destruct (decide (k ∈ m.*1)); rewrite ?length_app, length_fmap; simpl; lia.
Qed.

(** A stable sort keeps the order of the entries that share a key. *)
Lemma sort_insert_same_key {A} (key : A → Z) (c : Z) (x : A) (l : list A) :
  filter (λ y, key y = c) (sort_insert (λ a b, key a - key b) x l) =
  filter (λ y, key y = c) (x :: l).
Proof.
  induction l as [|y l IH]; simpl; [done|].
  destruct (Z.leb_spec (key x - key y) 0) as [Hle|Hgt]; [done|].
  rewrite (filter_cons _ y), IH, !(filter_cons _ x), !(filter_cons _ y).
  destruct (decide (key x = c)), (decide (key y = c)); try done. lia.
Qed.

Lemma Array_sort_same_key {A} (key : A → Z) (c : Z) (l : list A) :
  filter (λ y, key y = c) (Array_sort (λ a b, key a - key b) l) =
  filter (λ y, key y = c) l.
Proof.
  induction l as [|x l IH]; simpl; [done|].
  rewrite sort_insert_same_key, !(filter_cons _ x), IH. done.
Qed.

(** An entry that comes before another among the filtered ones comes before
    it in the list. *)
Lemma filter_order {A} (P : A → Prop) `{∀ x, Decision (P x)} (l u v : list A) (a b : A) :
  filter P l = u ++ a :: v → b ∈ v →
  ∃ l1 l2 l3, l = l1 ++ a :: l2 ++ b :: l3.
Proof.
  revert u. induction l as [|x l IH]; intros u Hf Hb.
  { by destruct u. }
  rewrite filter_cons in Hf. destruct (decide (P x)) as [HP|HP].
  - destruct u as [|x' u]; simpl in Hf; injection Hf as -> Hf.
    + assert (b ∈ l) as Hbl.
      { assert (b ∈ filter P l) as Hbf by (by rewrite Hf).
        by apply list_elem_of_filter in Hbf as [_ ?]. }
      apply list_elem_of_split in Hbl as (l2 & l3 & ->).
      by exists [], l2, l3.
    + destruct (IH u Hf Hb) as (l1 & l2 & l3 & ->).
      by exists (x' :: l1), l2, l3.
  - destruct (IH u Hf Hb) as (l1 & l2 & l3 & ->).
    by exists (x :: l1), l2, l3.
Qed.

Lemma cleanup_length (jobs : store) :
  NoDup jobs.*1 → (100 < length jobs)%nat → length (cleanup jobs) = 100%nat.
Proof.
  intros Hnd Hlen.
  rewrite (cleanup_kept jobs Hnd Hlen), length_drop, (Array_sort_perm by_createdAt jobs).
  lia.
Qed.

End StoreMore.

(** X15.  On a store with unique keys the clean-up leaves
    [min (size, 100)] jobs: it does nothing to a store of at most 100 jobs,
    which is what it leaves behind, so running it twice is running it
    once. *)
Theorem cleanup_bounds_store (jobs : store) :
  NoDup jobs.*1 →
  length (cleanup jobs) = (length jobs `min` 100)%nat ∧
  ((length jobs ≤ 100)%nat → cleanup jobs = jobs) ∧
  cleanup (cleanup jobs) = cleanup jobs.
Proof.
  intros Hnd.
  assert (∀ m : store, (length m ≤ 100)%nat → cleanup m = m) as Hsmall.
  { intros m Hm. unfold cleanup. destruct (Z.ltb_spec 100 (Z.of_nat (length m))); [lia|done]. }
  assert (length (cleanup jobs) = (length jobs `min` 100)%nat) as Hlen.
  { destruct (decide (100 < length jobs)%nat) as [Hbig|Hle].
    - rewrite (cleanup_length jobs Hnd Hbig). lia.
    - rewrite Hsmall by lia. lia. }
  split_and!; [done|apply Hsmall|].
  apply Hsmall. lia.
Qed.

Lemma cleanup_bounds_store_witness :
  NoDup sample_store.*1 ∧
  length (cleanup sample_store) = (length sample_store `min` 100)%nat ∧
  cleanup (cleanup sample_store) = cleanup sample_store.
Proof.
  assert (NoDup sample_store.*1) as Hnd
    by (apply (bool_decide_unpack _); vm_compute; exact I).
  split; [exact Hnd|].
  destruct (cleanup_bounds_store sample_store Hnd) as (Hlen & _ & Hidem).
  split; [exact Hlen | exact Hidem].
Defined.

(** The clean-up is a filter on keys. *)
Lemma cleanup_as_filter (jobs : store) :
  ∃ dels : list (string * job), cleanup jobs = filter (λ e, e.1 ∉ dels.*1) jobs.
Proof.
  unfold cleanup. destruct (100 <? Z.of_nat (length jobs)).
  - eexists. apply delete_all.
  - exists []. symmetry. apply filter_all. intros x _. apply not_elem_of_nil.
Qed.

Lemma Map_get_unique (m : store) k j : NoDup m.*1 → (k, j) ∈ m → Map_get k m = Some j.
Proof.
  induction m as [|[k0 j0] m IH]; intros Hnd Hin; simpl.
  { by apply elem_of_nil in Hin. }
  apply NoDup_cons in Hnd as [Hk0 Hnd].
  destruct (String.eqb_spec k k0) as [->|Hne].
  - apply elem_of_cons in Hin as [[= ->]|Hin]; [done|].
    destruct Hk0. by apply (list_elem_of_fmap_2 fst) in Hin.
  - apply elem_of_cons in Hin as [[= -> ->]|Hin]; [done|]. by apply IH.
Qed.

(** X16.  The clean-up changes no job and invents none: under a key it
    keeps, a poll finds the job it found before, and under the key of a job
    it has removed a poll finds nothing and is answered 404. *)
Theorem cleanup_then_poll (jobs : store) (id : string) :
  NoDup jobs.*1 →
  (id ∈ (cleanup jobs).*1 → get_job (cleanup jobs) id = get_job jobs id) ∧
  (id ∉ (cleanup jobs).*1 →
   get_job (cleanup jobs) id =
     {| res_status := 404; res_body := BodyNotFound "Job not found" id |}) ∧
  (∀ j, (id, j) ∈ jobs → (id, j) ∉ cleanup jobs →
        get_job jobs id = {| res_status := 200; res_body := BodyJob j |} ∧
        get_job (cleanup jobs) id =
          {| res_status := 404; res_body := BodyNotFound "Job not found" id |}).
Proof.
  intros Hnd. destruct (cleanup_as_filter jobs) as [dels Hc]. rewrite Hc.
  unfold get_job. rewrite (Map_get_filter dels.*1).
  split_and!.
  - intros Hin. apply list_elem_of_fmap in Hin as (e & -> & He).
    apply list_elem_of_filter in He as [He _]. by rewrite decide_True.
  - intros Hout. destruct (decide (id ∉ dels.*1)) as [Hkeep|]; [|done].
    destruct (Map_get id jobs) as [j|] eqn:Hg; [|done].
    destruct Hout. apply Map_get_Some in Hg.
    apply (list_elem_of_fmap_2' fst _ (id, j)); [|done].
    by apply list_elem_of_filter.
  - intros j Hin Hout. rewrite (Map_get_unique jobs id j Hnd Hin). split; [done|].
    destruct (decide (id ∉ dels.*1)) as [Hkeep|]; [|done].
    destruct Hout. by apply list_elem_of_filter.
Qed.

Lemma cleanup_then_poll_witness :
  NoDup sample_store.*1 ∧
  get_job (cleanup sample_store) "job_1700000000000_4fzyo82" =
    {| res_status := 404;
       res_body := BodyNotFound "Job not found" "job_1700000000000_4fzyo82" |}.
Proof.
  assert (NoDup sample_store.*1) as Hnd
    by (apply (bool_decide_unpack _); vm_compute; exact I).
  split; [exact Hnd|].
  apply (proj1 (proj2 (cleanup_then_poll sample_store "job_1700000000000_4fzyo82" Hnd))).
  apply (bool_decide_unpack _). vm_compute. exact I.
Defined.

(** X17.  Among jobs with the same creation time the clean-up goes by the
    order of insertion: when it removes one job and keeps another created in
    the same millisecond, the removed one was inserted into the store
    first. *)
Theorem eviction_ties_by_insertion (jobs : store) (evicted retained : string * job) :
  NoDup jobs.*1 →
  (100 < length jobs)%nat →
  evicted ∈ jobs → evicted ∉ cleanup jobs → retained ∈ cleanup jobs →
  job_createdAt evicted.2 = job_createdAt retained.2 →
  ∃ l1 l2 l3, jobs = l1 ++ evicted :: l2 ++ retained :: l3.
Proof.
  intros Hnd Hlen He Hne Hr Htie.
  pose proof (cleanup_kept jobs Hnd Hlen) as Hkept.
  pose proof (Array_sort_perm by_createdAt jobs) as Hperm.
  rewrite Hkept in Hne, Hr. rewrite <- Hperm in He.
  pose proof (Array_sort_same_key (λ e : string * job, job_createdAt e.2)
                (job_createdAt evicted.2) jobs) as Hsame.
  change (Array_sort _ jobs) with (Array_sort by_createdAt jobs) in Hsame.
  set (sorted := Array_sort by_createdAt jobs) in *.
  set (k := (length jobs - 100)%nat) in *.
  rewrite <- (take_drop k sorted) in He, Hsame.
  apply elem_of_app in He as [He|He]; [|done].
  apply list_elem_of_split in He as (a1 & a2 & Ha).
  rewrite Ha, <- app_assoc, filter_app in Hsame. simpl in Hsame.
  rewrite filter_cons_True in Hsame by done.
  symmetry in Hsame.
  eapply filter_order; [exact Hsame|].
  apply list_elem_of_filter. split; [done|].
  apply elem_of_app. by right.
Qed.

Lemma eviction_ties_by_insertion_witness :
  let twin n := ("twin" +:+ dec n,
                 {| job_id := "twin" +:+ dec n; job_status_of := Pending;
                    job_createdAt := 1700000000000; job_completedAt := None;
                    job_videoUrl := "https://cdn.example/video.webm";
                    job_videoMetadata := JNull; job_result := None;
                    job_error_of := None |}) in
  let jobs := twin <$> seqZ 0 101 in
  ∃ l1 l2 l3, jobs = l1 ++ twin 0 :: l2 ++ twin 1 :: l3.
Proof.
  intros twin jobs.
  apply (eviction_ties_by_insertion jobs (twin 0) (twin 1)).
  - apply (bool_decide_unpack _). vm_compute. exact I.
  - vm_compute. lia.
  - left.
  - vm_compute. intros Hin. 
    repeat (apply elem_of_cons in Hin as [Hin|Hin]; [discriminate Hin|]).
    by apply elem_of_nil in Hin.
  - vm_compute. left.
  - reflexivity.
Defined.

(* ===================================================================== *)
(** * Properties of the routes                                           *)
(* ===================================================================== *)

(** X18.  An accepted request puts its job into the store under the id it
    generated: a lookup of that id finds this job, every other id is found as
    before, and the store grows by one entry unless the id was already in
    use, in which case the new job takes the place of the old one.  In the
    asynchronous mode the answer is 202 with that id and the poll URL
    [/job/] followed by the id. *)
Theorem accepted_post_registers_job `{JsBuiltins} (jobs : store) (req : request)
    (env : environment) :
  accepted req = true →
  let id := jobId (date_now env) (random36 env) in
  let jobs' := post_upload jobs req env in
  Map_get id jobs' = Some (new_job req env) ∧
  (∀ k, k ≠ id → Map_get k jobs' = Map_get k jobs) ∧
  length jobs' = (if decide (id ∈ jobs.*1) then length jobs else S (length jobs)) ∧
  (NoDup jobs.*1 → NoDup jobs'.*1) ∧
  (sync req = false →
   post_upload_response req env =
     Some {| res_status := 202;
             res_body := BodyAccepted id "accepted"
                           "Upload started. Poll GET /job/:id for status."
                           ("/job/" +:+ id) |}).
Proof.
  intros Hacc id jobs'. subst id jobs'. unfold post_upload. rewrite Hacc. simpl.
  split_and!.
  - rewrite Map_get_set. by rewrite decide_True.
  - intros k Hk. rewrite Map_get_set. by rewrite decide_False.
  - apply Map_set_length.
  - intros Hnd. pose proof (post_upload_NoDup jobs req env Hnd) as Hnd'.
    unfold post_upload in Hnd'. by rewrite Hacc in Hnd'.
  - intros Hsync. unfold post_upload_response. by rewrite Hacc, Hsync.
Qed.

Lemma accepted_post_registers_job_witness :
  let jobs := post_upload [] first_request first_env in
  Map_get "job_1700000000000_4fzyo82" (post_upload jobs second_request second_env) =
    Some (new_job second_request second_env) ∧
  length (post_upload jobs second_request second_env) = 1%nat.
Proof.
  intros jobs.
  destruct (@accepted_post_registers_job sample_builtins jobs second_request second_env
              eq_refl) as (Hget & _ & Hlen & _).
  split; [exact Hget | exact Hlen].
Defined.

(** X19.  In the synchronous mode an accepted request is answered when the
    run of its job ends, with the job as it then is: 201 when the job is
    completed, with its result set and no error, and 500 when it is failed,
    with its error set and no result.  It is never answered while the HEAD
    request or an attempt stays undecided. *)
Theorem sync_post_answers_with_outcome `{JsBuiltins} (req : request) (env : environment) :
  accepted req = true →
  sync req = true →
  let run := job_run req env in
  let job := final_job (new_job req env) run.1 in
  (run.2 = Done tt →
   (job_status_of job = Completed ∧ job_result job ≠ None ∧ job_error_of job = None ∧
    post_upload_response req env = Some {| res_status := 201; res_body := BodyJob job |}) ∨
   (job_status_of job = Failed ∧ job_error_of job ≠ None ∧ job_result job = None ∧
    post_upload_response req env = Some {| res_status := 500; res_body := BodyJob job |})) ∧
  (run.2 = Hangs → post_upload_response req env = None) ∧
  (run.2 = Done tt ∨ run.2 = Hangs).
Proof.
  intros Hacc Hsync run job. subst run job.
  unfold post_upload_response. rewrite Hacc, Hsync. simpl.
  rewrite (job_run_sync_irrelevant req env).
  unfold final_job, runUpload.
  destruct (contentLength req) as [len|];
    [ | destruct (getContentLength (head_events env)) as [|len|e0] ];
    stream_cases (relay_events env); simpl;
    (split_and!; [ intros Hd; try done; first [ left; done | right; done ]
                 | intros Hh; done
                 | auto ]).
Qed.

Lemma sync_post_answers_with_outcome_witness :
  let req := {| videoUrl := Some "https://cdn.example/video.webm"%string;
                uploadUrl := Some "https://upload.example/session/1"%string;
                oauthToken := Some "token"%string;
                videoMetadata := None; contentLength := Some (JsNum 1000);
                contentType := None; sync := true |} in
  (@job_run sample_builtins req env_unavailable).2 = Done tt ∧
  option_map res_status (@post_upload_response sample_builtins req env_unavailable) = Some 500.
Proof.
  intros req. split; [reflexivity|].
  destruct (proj1 (@sync_post_answers_with_outcome sample_builtins req env_unavailable
                     eq_refl eq_refl) eq_refl) as [(Hs & _)|(_ & _ & _ & ->)].
  - discriminate Hs.
  - reflexivity.
Defined.

(** X20.  A request in which [videoUrl], [uploadUrl] or [oauthToken] is
    missing or empty is answered 400 with the list of the three required
    fields, in either mode, and leaves the store as it was: no job is made
    for it. *)
Theorem rejected_post_leaves_store `{JsBuiltins} (jobs : store) (req : request)
    (env : environment) :
  videoUrl req = None ∨ videoUrl req = Some EmptyString ∨
  uploadUrl req = None ∨ uploadUrl req = Some EmptyString ∨
  oauthToken req = None ∨ oauthToken req = Some EmptyString →
  post_upload jobs req env = jobs ∧
  post_upload_response req env =
    Some {| res_status := 400;
            res_body := BodyMissingFields "Missing required fields"
                          ["videoUrl"; "uploadUrl"; "oauthToken"]%string |}.
Proof.
  intros Hmiss.
  assert (accepted req = false) as Hacc.
  { unfold accepted. apply negb_false_iff. rewrite !orb_true_iff.
    destruct Hmiss as [->|[->|[->|[->|[->| ->]]]]]; simpl; auto. }
  unfold post_upload, post_upload_response. by rewrite Hacc.
Qed.

Lemma rejected_post_leaves_store_witness :
  let req := {| videoUrl := Some "https://cdn.example/video.webm"%string;
                uploadUrl := Some "https://upload.example/session/1"%string;
                oauthToken := Some EmptyString;
                videoMetadata := None; contentLength := None;
                contentType := None; sync := true |} in
  post_upload sample_store req first_env = sample_store.
Proof.
  intros req.
  apply (@rejected_post_leaves_store sample_builtins sample_store req first_env).
  do 5 right. reflexivity.
Defined.

(** X21.  The value of a resolved attempt has status code 201; its
    [videoId] is null or a truthy value - the [id] of the parsed body when
    that is an object with a truthy [id], and null when the body does not
    parse, parses to null or to something that is no object, or has an [id]
    such as 0, false or the empty string; its [rawResponse] is the response
    body or absent, never the empty string. *)
Theorem resolved_value_shape `{JsBuiltins} (evs : list relay_event) (r : upload_result) :
  attemptStreamUpload evs = PResolved r →
  r_statusCode r = 201 ∧
  (videoId r = JNull ∨ truthy (videoId r) = true) ∧
  rawResponse r ≠ Some EmptyString ∧
  ∃ bd, (rawResponse r = Some bd ∨ rawResponse r = None ∧ bd = EmptyString) ∧
        (JSON_parse bd = None → videoId r = JNull) ∧
        (∀ v, JSON_parse bd = Some v → (∀ props, v ≠ JObject props) → videoId r = JNull) ∧
        (∀ props, JSON_parse bd = Some (JObject props) →
                  videoId r = match own_property "id" props with
                              | Some i => if truthy i then i else JNull
                              | None => JNull
                              end).
Proof.
  intros Hr. unfold attemptStreamUpload in Hr.
  destruct (relay_run_resolved evs relay_init r eq_refl Hr)
    as (pre & post & bd & _ & _ & _ & Hend).
  unfold on_end in Hend. simpl in Hend. injection Hend as <-. simpl.
  split_and!.
  - done.
  - unfold parse_videoId. destruct (JSON_parse bd) as [v|]; [|by left].
    destruct (get_id v) as [[i|]|]; simpl; try by left.
    destruct (truthy i) eqn:Hi; [by right|by left].
  - destruct bd; simpl; done.
  - exists bd. split_and!.
    + destruct bd; simpl; auto.
    + unfold parse_videoId. by intros ->.
    + unfold parse_videoId. intros v -> Hobj.
      destruct v; simpl; try done. by destruct (Hobj props).
    + unfold parse_videoId. by intros props ->.
Qed.

Lemma resolved_value_shape_witness :
  ∃ r, @attemptStreamUpload sample_builtins (exchange 201 [sample_body]) = PResolved r ∧
       r_statusCode r = 201 ∧
       (videoId r = JNull ∨ truthy (videoId r) = true) ∧
       rawResponse r ≠ Some EmptyString.
Proof.
  eexists. split; [reflexivity|].
  destruct (@resolved_value_shape sample_builtins (exchange 201 [sample_body]) _ eq_refl)
    as (Hs & Hid & Hraw & _).
  split; [exact Hs|]. split; [exact Hid | exact Hraw].
Defined.
